(* ===================================================================== *)
(* equations.py: counting the solutions of 1/x + 1/y = 1/N!             *)
(*                                                                       *)
(* A shallow embedding of GetPrimesUpTo, GetPrimeExponent and            *)
(* NumDivisors, and the proofs of their specification.                   *)
(*                                                                       *)
(* The program is Python 2 (print statement, raw_input): its integers    *)
(* are unbounded, modelled by Z, and `/` between two integers is floor   *)
(* division, modelled by Z.div.                                          *)
(* ===================================================================== *)

From Stdlib Require Import ZArith Lia.
From HB Require Import structures.
From mathcomp Require Import boot.

Set Implicit Arguments.
Unset Strict Implicit.
Unset Printing Implicit Defensive.
#[local] Set Warnings "-rewrite-rw".

(* --------------------------------------------------------------------- *)
(* Outcomes of a run                                                     *)
(* --------------------------------------------------------------------- *)

(* The exceptions the operations used by the program can raise. *)
Inductive exn : Type :=
| IndexError | ZeroDivisionError | ValueError | OverflowError | MemoryError.

(* A run ends with a value, raises, or is cut off when the fuel given to
   a while loop is used up. *)
Inductive outcome (A : Type) : Type :=
| Done (a : A)
| Raise (e : exn)
| OutOfFuel.

Arguments Done {A} a.
Arguments Raise {A} e.
Arguments OutOfFuel {A}.

Definition bind {A B : Type} (m : outcome A) (k : A -> outcome B) : outcome B :=
  match m with
  | Done a => k a
  | Raise e => Raise e
  | OutOfFuel => OutOfFuel
  end.

Notation "'let*' x ':=' m 'in' k" := (bind m (fun x => k))
  (at level 10, x name, m at level 100, k at level 200).

(* `for x in xs: body`, the loop state threaded from left to right. *)
Fixpoint for_each {A S : Type} (xs : seq A) (body : A -> S -> outcome S) (s : S)
  : outcome S :=
  match xs with
  | [::] => Done s
  | x :: xs' => let* s' := body x s in for_each xs' body s'
  end.

(* --------------------------------------------------------------------- *)
(* Python built-ins used by the program                                  *)
(* --------------------------------------------------------------------- *)

Open Scope Z_scope.

(* range(start, stop, step): ValueError when step is 0, else the
   arithmetic progression from start, up (or down) to stop excluded. *)
Definition range_len (start stop step : Z) : nat :=
  if 0 <? step then Z.to_nat ((stop - start + step - 1) / step)
  else Z.to_nat ((start - stop - step - 1) / (- step)).

Definition py_range (start stop step : Z) : outcome (seq Z) :=
  if step =? 0 then Raise ValueError
  else Done [seq start + Z.of_nat k * step | k <- iota 0 (range_len start stop step)].

(* [x] * n: n copies of x, none when n <= 0; on an interpreter whose
   indices and memory are unbounded. *)
Definition list_repeat {A : Type} (x : A) (n : Z) : seq A := nseq (Z.to_nat n) x.

(* [x] * n on CPython (64-bit build): the count is first converted to a
   machine index, OverflowError when it does not fit; the list is then
   allocated, MemoryError when n exceeds capacity, the number of cells the
   interpreter can allocate when the call is made. *)
Definition PY_SSIZE_T_MAX : Z := 2 ^ 63 - 1.

Definition list_repeat_machine {A : Type} (capacity : Z) (x : A) (n : Z)
  : outcome (seq A) :=
  if (n <? - PY_SSIZE_T_MAX - 1) || (PY_SSIZE_T_MAX <? n) then Raise OverflowError
  else if capacity <? n then Raise MemoryError
  else Done (list_repeat x n).

(* The marking array, with the indices it was read or written at (the
   latest first). *)
Record marks : Type := Marks { cells : seq bool; touched : seq Z }.

Definition py_len (a : marks) : Z := Z.of_nat (size (cells a)).

(* The position an index denotes: i itself when 0 <= i < len, len + i
   when -len <= i < 0, IndexError otherwise. *)
Definition position (a : marks) (i : Z) : outcome nat :=
  if (0 <=? i) && (i <? py_len a) then Done (Z.to_nat i)
  else if (- py_len a <=? i) && (i <? 0) then Done (Z.to_nat (py_len a + i))
  else Raise IndexError.

(* a[i] *)
Definition getitem (a : marks) (i : Z) : outcome (bool * marks) :=
  let* k := position a i in
  Done (nth false (cells a) k, Marks (cells a) (i :: touched a)).

(* a[i] = b *)
Definition setitem (a : marks) (i : Z) (b : bool) : outcome marks :=
  let* k := position a i in
  Done (Marks (set_nth false (cells a) k b) (i :: touched a)).

(* --------------------------------------------------------------------- *)
(* GetPrimesUpTo                                                         *)
(* --------------------------------------------------------------------- *)

Definition MODULUS_TERM : Z := 1000007.

(* The state of the sieve's loops: isPrime and primes. *)
Record sieve : Type := Sieve { isPrime : marks; primes : seq Z }.

(* The sieve, marking the multiples of i from `first i` on; the program
   marks them from i on. *)
Section Sieve.

Variable first : Z -> Z.

(*   for multiple in range(first i, rangeEnd+1, i):
       isPrime[multiple] = False                                         *)
Definition mark_multiples (rangeEnd i : Z) (a : marks) : outcome marks :=
  let* multiples := py_range (first i) (rangeEnd + 1) i in
  for_each multiples (fun multiple a' => setitem a' multiple false) a.

(*   if isPrime[i] == True:
       primes.append(i)
       (mark the multiples of i)                                         *)
Definition sieve_step (rangeEnd i : Z) (s : sieve) : outcome sieve :=
  let* r := getitem (isPrime s) i in
  if r.1 == true then
    let* a := mark_multiples rangeEnd i r.2 in
    Done (Sieve a (rcons (primes s) i))
  else Done (Sieve r.2 (primes s)).

Definition sieve_run (rangeEnd : Z) : outcome sieve :=
  let isPrime0 := Marks (list_repeat true (rangeEnd + 1)) [::] in
  let primes0 := [::] in
  let primes1 := if 2 <=? rangeEnd then rcons primes0 2 else primes0 in
  let* candidates := py_range 3 (rangeEnd + 1) 2 in
  for_each candidates (sieve_step rangeEnd) (Sieve isPrime0 primes1).

End Sieve.

(* def GetPrimesUpTo(rangeEnd), with the final state of the marking array
   kept for the claims on the indices it was accessed at. *)
Definition GetPrimesUpTo_run (rangeEnd : Z) : outcome sieve :=
  sieve_run (fun i => i) rangeEnd.

Definition GetPrimesUpTo (rangeEnd : Z) : outcome (seq Z) :=
  let* s := GetPrimesUpTo_run rangeEnd in Done (primes s).

(* def GetPrimesUpTo(rangeEnd) with the allocation of isPrime as CPython
   makes it. *)
Definition GetPrimesUpTo_machine_run (capacity rangeEnd : Z) : outcome sieve :=
  let* cells0 := list_repeat_machine capacity true (rangeEnd + 1) in
  let isPrime0 := Marks cells0 [::] in
  let primes0 := [::] in
  let primes1 := if 2 <=? rangeEnd then rcons primes0 2 else primes0 in
  let* candidates := py_range 3 (rangeEnd + 1) 2 in
  for_each candidates (sieve_step (fun i => i) rangeEnd) (Sieve isPrime0 primes1).

Definition GetPrimesUpTo_machine (capacity rangeEnd : Z) : outcome (seq Z) :=
  let* s := GetPrimesUpTo_machine_run capacity rangeEnd in Done (primes s).

(* The variant the specification allows: marking from i*i on. *)
Definition GetPrimesUpTo_square (rangeEnd : Z) : outcome (seq Z) :=
  let* s := sieve_run (fun i => i * i) rangeEnd in Done (primes s).

(* --------------------------------------------------------------------- *)
(* GetPrimeExponent                                                      *)
(* --------------------------------------------------------------------- *)

(* N / p on Python 2 integers: floor division, ZeroDivisionError when p
   is 0. *)
Definition floordiv (n p : Z) : outcome Z :=
  if p =? 0 then Raise ZeroDivisionError else Done (n / p).

(*   while remainingN > 1:
       remainingN /= p
       exponent += remainingN
     return exponent
   with one unit of fuel for each test of the loop condition. *)
Fixpoint exponent_loop (fuel : nat) (p remainingN exponent : Z) : outcome Z :=
  match fuel with
  | O => OutOfFuel
  | S fuel' =>
      if 1 <? remainingN then
        let* remainingN' := floordiv remainingN p in
        exponent_loop fuel' p remainingN' (exponent + remainingN')
      else Done exponent
  end.

Definition GetPrimeExponent_fuel (fuel : nat) (N p : Z) : outcome Z :=
  exponent_loop fuel p N 0.

(* Enough fuel for every run that ends: when 2 <= p the running value
   halves at least at each turn, and a run with another p that does not
   raise at once or stop after one turn never ends. *)
Definition GetPrimeExponent (N p : Z) : outcome Z :=
  GetPrimeExponent_fuel (S (Z.to_nat N)) N p.

(* --------------------------------------------------------------------- *)
(* NumDivisors                                                           *)
(* --------------------------------------------------------------------- *)

(* Counter(): the keys with their values, in the order of insertion;
   c[k] = v replaces the value of a key that is present. *)
Definition counter : Type := seq (Z * Z).

Fixpoint counter_set (c : counter) (k v : Z) : counter :=
  match c with
  | [::] => [:: (k, v)]
  | (k', v') :: c' =>
      if k' =? k then (k, v) :: c' else (k', v') :: counter_set c' k v
  end.

Definition counter_values (c : counter) : seq Z := [seq kv.2 | kv <- c].

(*   for p in primes: primeExponents[p] = GetPrimeExponent(N, p)         *)
Definition fill_exponents (N : Z) (ps : seq Z) : outcome counter :=
  for_each ps
    (fun p c => let* e := GetPrimeExponent N p in Done (counter_set c p e)) [::].

(*   result *= (2*e + 1); result %= MODULUS_TERM                         *)
Definition accumulate_step (result e : Z) : Z :=
  (result * (2 * e + 1)) mod MODULUS_TERM.

(* The accumulator after each turn of the loop over the exponents. *)
Definition accumulate (es : seq Z) : Z := foldl accumulate_step 1 es.

Definition accumulate_trace (es : seq Z) : seq Z := scanl accumulate_step 1 es.

(* def NumDivisors(N). The order in which a Python 2 dictionary yields
   its values is fixed by the hashes of its keys; the values are taken
   here in the order of insertion; the result is the same in any other
   order, as the product modulo MODULUS_TERM is commutative. *)
Definition NumDivisors (N : Z) : outcome Z :=
  let* ps := GetPrimesUpTo N in
  let* primeExponents := fill_exponents N ps in
  Done (accumulate (counter_values primeExponents)).

(* def NumDivisors(N) with the allocation of isPrime as CPython makes
   it. *)
Definition NumDivisors_machine (capacity N : Z) : outcome Z :=
  let* ps := GetPrimesUpTo_machine capacity N in
  let* primeExponents := fill_exponents N ps in
  Done (accumulate (counter_values primeExponents)).

(* --------------------------------------------------------------------- *)
(* The specification: primes, divisors, solutions                        *)
(* --------------------------------------------------------------------- *)

Close Scope Z_scope.

(* Z as an eqType, and its product as a commutative monoid, for uniq,
   perm_eq and products over sequences of integers. *)
Definition Z_eqP : Equality.axiom Z.eqb :=
  fun x y => iffP idP (proj1 (Z.eqb_eq x y)) (proj2 (Z.eqb_eq x y)).

HB.instance Definition _ := hasDecEq.Build Z Z_eqP.

HB.instance Definition _ :=
  Monoid.isComLaw.Build Z 1%Z Z.mul Z.mul_assoc Z.mul_comm Z.mul_1_l.

HB.instance Definition _ :=
  Monoid.isComLaw.Build Z 0%Z Z.add Z.add_assoc Z.add_comm Z.add_0_l.

(* The primes of [2, n], ascending. *)
Definition primes_upto (n : nat) : seq nat := [seq p <- iota 0 n.+1 | prime p].

(* The number of positive divisors of m, by trying each d of [1, m]. *)
Definition count_divisors (m : nat) : nat := count (fun d => d %| m) (iota 1 m).

(* (x, y) is a solution of 1/x + 1/y = 1/m in positive integers: the
   equation with its denominators cleared. *)
Definition is_solution (m : nat) (xy : nat * nat) : bool :=
  [&& 0 < xy.1, 0 < xy.2 & m * (xy.1 + xy.2) == xy.1 * xy.2].

(* Every solution has its components in [m + 1, m + m^2]; the solutions,
   by trying each pair. *)
Definition solutions (m : nat) : seq (nat * nat) :=
  let bound := iota 0 (m + m ^ 2).+1 in
  [seq xy <- [seq (x, y) | x <- bound, y <- bound] | is_solution m xy].

(* The solution a divisor d of m^2 stands for. *)
Definition solution_of (m d : nat) : nat * nat := (m + d, m + m ^ 2 %/ d).

(* Legendre's sum, floor(N/p) + floor(N/p^2) + ... + floor(N/p^K). *)
Definition legendre_sum (N p : Z) (K : nat) : Z :=
  \big[Z.add/0%Z]_(1 <= k < K.+1) (N / p ^ Z.of_nat k)%Z.

(* The product of the 2e + 1, unreduced. *)
Definition divisor_product (es : seq Z) : Z :=
  \big[Z.mul/1%Z]_(e <- es) (2 * e + 1)%Z.

(* Every element of a sequence of integers lies in [lo, hi]. *)
Definition all_between (lo hi : Z) (xs : seq Z) : bool :=
  all (fun x => (lo <=? x)%Z && (x <=? hi)%Z) xs.

(* Every index the marking array was accessed at lies in [0, n]. *)
Definition within (n : nat) (a : marks) : bool :=
  all_between 0 (Z.of_nat n) (touched a).

(* m was marked by an odd prime below i, when the multiples of q are
   marked from `start q` on. *)
Definition struck (start : nat -> nat) (i m : nat) : Prop :=
  exists q, [/\ q < i, prime q, odd q, q %| m & start q <= m].

(* --------------------------------------------------------------------- *)
(* Primes by trial division, to evaluate the program on large inputs     *)
(* --------------------------------------------------------------------- *)

(* No d, d+2, d+4, ... whose square is at most n divides n. *)
Fixpoint trial_odd (fuel : nat) (d n : Z) : bool :=
  match fuel with
  | O => true
  | S fuel' =>
      if (n <? d * d)%Z then true
      else if (n mod d =? 0)%Z then false
      else trial_odd fuel' (d + 2)%Z n
  end.

Definition Zprime (n : Z) : bool :=
  if (n <? 2)%Z then false
  else if (n =? 2)%Z then true
  else if (n mod 2 =? 0)%Z then false
  else trial_odd (Z.to_nat (Z.sqrt n)) 3%Z n.

Fixpoint Zseq (start : Z) (len : nat) : seq Z :=
  match len with
  | O => [::]
  | S len' => start :: Zseq (start + 1)%Z len'
  end.

Definition trial_primes (N : Z) : seq Z :=
  [seq p <- Zseq 0%Z (Z.to_nat (N + 1)) | Zprime p].

(* The exponents of the primes of [2, n] in n!, in the order of the
   primes. *)
Definition factorial_exponents (n : nat) : seq Z :=
  [seq Z.of_nat (logn p n`!) | p <- primes_upto n].

(* NumDivisors for 0 <= N < 2^20, with the primes found by trial division
   and twenty turns of fuel for each exponent. *)
Definition fast_exponent (N p : Z) : Z :=
  if GetPrimeExponent_fuel 20 N p is Done e then e else 0%Z.

Definition NumDivisors_fast (N : Z) : Z :=
  accumulate [seq fast_exponent N p | p <- trial_primes N].

(* floor(n/p) + floor(n/p^2) + ... + floor(n/p^n), on natural numbers. *)
Definition floor_sum (p n : nat) : nat := \sum_(1 <= k < n.+1) n %/ p ^ k.

(* ===================================================================== *)
(* Proofs                                                                *)
(* ===================================================================== *)

(* Arithmetic goals of ssrnat, handed to lia. *)
Ltac coq_nat :=
  repeat match goal with
  | H : is_true (leq _ _) |- _ => move/leP: H => H
  | H : is_true (eq_op _ _) |- _ => move/eqP: H => H
  | H : is_true (~~ leq _ _) |- _ => move/leP: H => H
  | H : is_true (~~ eq_op _ _) |- _ => move/eqP: H => H
  | H : leq _ _ = false |- _ => move/leP: H => H
  | H : leq _ _ = true |- _ => move/leP: H => H
  | H : eq_op _ _ = false |- _ => move/eqP: H => H
  | |- is_true (leq _ _) => apply/leP
  | |- is_true (eq_op _ _) => apply/eqP
  | |- is_true (~~ leq _ _) => apply/leP
  | |- is_true (~~ eq_op _ _) => apply/eqP
  end;
  rewrite <- ?plusE, <- ?multE, <- ?minusE in *.

Ltac nat_lia := coq_nat; lia.
Ltac nat_nia := coq_nat; nia.


(* --------------------------------------------------------------------- *)
(* Primes up to n, divisors of (n!)^2                                    *)
(* --------------------------------------------------------------------- *)

Lemma mem_primes_upto n p : (p \in primes_upto n) = (p <= n) && prime p.
Proof. by rewrite mem_filter mem_iota /= add0n ltnS andbC. Qed.

Lemma primes_upto_sorted n : sorted ltn (primes_upto n).
Proof. exact: sorted_filter ltn_trans _ _ (iota_ltn_sorted 0 n.+1). Qed.

Lemma primes_upto_uniq n : uniq (primes_upto n).
Proof. by rewrite filter_uniq // iota_uniq. Qed.

Lemma count_divisorsE m : 0 < m -> count_divisors m = size (divisors m).
Proof.
move=> m_gt0; rewrite /count_divisors -size_filter.
apply/perm_size/uniq_perm; rewrite ?filter_uniq ?iota_uniq ?divisors_uniq //.
move=> d; rewrite mem_filter mem_iota -dvdn_divisors // add1n ltnS.
case dv: (d %| m) => //=.
by rewrite (dvdn_leq m_gt0 dv) (dvdn_gt0 m_gt0 dv).
Qed.

Lemma size_add_divisors p e divs :
  size (PrimeDecompAux.add_divisors (p, e) divs) = e.+1 * size divs.
Proof.
rewrite /PrimeDecompAux.add_divisors; elim: e => [|e IHe] /=; first by rewrite mul1n.
by rewrite size_merge size_cat size_map IHe addnC -mulSn.
Qed.

Lemma size_divisors m :
  size (divisors m) = \prod_(p <- prime.primes m) (logn p m).+1.
Proof.
rewrite /divisors prime_decompE.
elim: (prime.primes m) => [|p ps IHps] /=; first by rewrite big_nil.
by rewrite size_add_divisors IHps big_cons.
Qed.

Lemma prime_dvd_fact p n : prime p -> (p %| n`!) = (p <= n).
Proof.
move=> pr_p; elim: n => [|n IHn].
  by rewrite fact0 dvdn1 leqn0 (gtn_eqF (prime_gt1 pr_p)) (gtn_eqF (prime_gt0 pr_p)).
rewrite factS Euclid_dvdM // IHn.
case: (leqP p n) => [le_pn | lt_np]; first by rewrite orbT leqW.
rewrite orbF; apply/idP/idP => [/(dvdn_leq (ltn0Sn n)) //|le_pSn].
by have ->: p = n.+1 by apply/eqP; rewrite eqn_leq le_pSn lt_np.
Qed.

Lemma primes_fact n : prime.primes n`! = primes_upto n.
Proof.
apply: (irr_sorted_eq ltn_trans ltnn (sorted_primes _) (primes_upto_sorted _)).
move=> p; rewrite mem_primes mem_primes_upto fact_gt0 /= andbC.
by case pr_p: (prime p); rewrite ?andbF //= !andbT prime_dvd_fact.
Qed.

Lemma primes_sqr m : prime.primes (m ^ 2) = prime.primes m.
Proof. exact: primesX. Qed.

Lemma size_divisors_fact_sqr n :
  size (divisors (n`! ^ 2)) = \prod_(p <- primes_upto n) (2 * logn p n`!).+1.
Proof.
rewrite size_divisors primes_sqr primes_fact.
by apply: eq_bigr => p _; rewrite lognX.
Qed.

(* --------------------------------------------------------------------- *)
(* The solutions of 1/x + 1/y = 1/m and the divisors of m^2              *)
(* --------------------------------------------------------------------- *)

Lemma solution_shape m x y :
  0 < m -> is_solution m (x, y) ->
  exists2 d, d %| m ^ 2 & (x, y) = solution_of m d.
Proof.
move=> m_gt0 /and3P[/= x_gt0 y_gt0 /eqP eq_xy].
have lt_mx: m < x by nat_nia.
have lt_my: m < y by nat_nia.
have def_sq: (x - m) * (y - m) = m ^ 2.
  rewrite -mulnn; nat_nia.
exists (x - m); first by rewrite -def_sq dvdn_mulr.
rewrite /solution_of -def_sq mulKn ?subn_gt0 //.
by rewrite !subnKC // ltnW.
Qed.

Lemma solution_of_ok m d :
  0 < m -> d %| m ^ 2 -> is_solution m (solution_of m d).
Proof.
move=> m_gt0 dv_d; have sq_gt0: 0 < m ^ 2 by rewrite expn_gt0 m_gt0.
have d_gt0 := dvdn_gt0 sq_gt0 dv_d.
have def_sq := divnK dv_d.
apply/and3P; split; rewrite /= ?addn_gt0 ?m_gt0 //.
rewrite -mulnn in def_sq *; move: (_ %/ d) def_sq => e def_sq.
nat_nia.
Qed.

Lemma solution_of_bound m d :
  0 < m -> d %| m ^ 2 ->
  (m + d < (m + m ^ 2).+1) && (m + m ^ 2 %/ d < (m + m ^ 2).+1).
Proof.
move=> m_gt0 dv_d; have sq_gt0: 0 < m ^ 2 by rewrite expn_gt0 m_gt0.
by rewrite !ltnS !leq_add2l dvdn_leq //= leq_div.
Qed.

Lemma mem_solutions m xy : 0 < m -> (xy \in solutions m) = is_solution m xy.
Proof.
move=> m_gt0; rewrite mem_filter; case sol: (is_solution m xy) => //.
rewrite andTb.
case: xy sol => x y /(solution_shape m_gt0)[d dv_d ->].
have /andP[bx by_] := solution_of_bound m_gt0 dv_d.
by rewrite /solution_of; apply: allpairs_f; rewrite mem_iota.
Qed.

Lemma solutions_uniq m : uniq (solutions m).
Proof.
by apply/filter_uniq/allpairs_uniq; rewrite ?iota_uniq // => -[x1 y1] [x2 y2].
Qed.

Lemma solutions_divisors m :
  0 < m -> perm_eq (solutions m) [seq solution_of m d | d <- divisors (m ^ 2)].
Proof.
move=> m_gt0; have sq_gt0: 0 < m ^ 2 by rewrite expn_gt0 m_gt0.
apply: uniq_perm; first exact: solutions_uniq.
  rewrite map_inj_uniq ?divisors_uniq // => d1 d2 [/eqP].
  by rewrite eqn_add2l => /eqP.
move=> xy; rewrite mem_solutions //; apply/idP/mapP => [sol | [d dv_d ->]].
  case: xy sol => x y /(solution_shape m_gt0)[d dv_d ->].
  by exists d; rewrite // -dvdn_divisors.
by apply: solution_of_ok; rewrite // dvdn_divisors.
Qed.

Lemma size_solutions m : 0 < m -> size (solutions m) = size (divisors (m ^ 2)).
Proof. by move=> /solutions_divisors/perm_size; rewrite size_map. Qed.

(* --------------------------------------------------------------------- *)
(* Integers of the program and natural numbers                           *)
(* --------------------------------------------------------------------- *)

#[local] Arguments Z.of_nat : simpl never.

Lemma Z_of_nat_div a b : Z.of_nat (a %/ b) = (Z.of_nat a / Z.of_nat b)%Z.
Proof.
case: (posnP b) => [-> | b_gt0]; first by rewrite divn0 Z.div_0_r.
have def_a := divn_eq a b; have lt_r := ltn_pmod a b_gt0.
apply: (@Z.div_unique _ _ _ (Z.of_nat (a %% b))); nat_lia.
Qed.

Lemma Z_of_nat_mod a b : 0 < b -> Z.of_nat (a %% b) = (Z.of_nat a mod Z.of_nat b)%Z.
Proof.
move=> b_gt0; have def_a := divn_eq a b; have lt_r := ltn_pmod a b_gt0.
apply: (@Z.mod_unique _ _ (Z.of_nat (a %/ b))); nat_lia.
Qed.

Lemma Z_of_nat_dvd a b :
  0 < b -> (Z.of_nat a mod Z.of_nat b =? 0)%Z = (b %| a).
Proof.
move=> b_gt0; rewrite -Z_of_nat_mod // /dvdn.
by apply/idP/eqP => [/Z.eqb_eq/(Nat2Z.inj _ 0) | ->].
Qed.

Lemma Z_of_nat_exp a k : Z.of_nat (a ^ k) = (Z.of_nat a ^ Z.of_nat k)%Z.
Proof.
elim: k => [|k IHk]; first by [].
by rewrite expnS Nat2Z.inj_succ Z.pow_succ_r ?Nat2Z.inj_mul ?IHk //; lia.
Qed.

(* --------------------------------------------------------------------- *)
(* Loops                                                                 *)
(* --------------------------------------------------------------------- *)

(* A loop over g j, g (j+1), ... keeps an invariant indexed by the number
   of turns taken, and ends. *)
Lemma for_each_iota_from (A S : Type) (I : nat -> S -> Prop) (g : nat -> A)
    (body : A -> S -> outcome S) (c j : nat) (s0 : S) :
  I j s0 ->
  (forall k s, j <= k < j + c -> I k s ->
     exists2 s', body (g k) s = Done s' & I k.+1 s') ->
  exists2 s', for_each [seq g k | k <- iota j c] body s0 = Done s' & I (j + c) s'.
Proof.
elim: c j s0 => [|c IHc] j s0 I0 step; first by exists s0; rewrite ?addn0.
have [|s1 run1 I1] := step j s0 _ I0; first by rewrite leqnn -addn1 leq_add2l.
have [k s /andP[lt_jk lt_kc] Ik|s' run' I'] := IHc j.+1 s1 I1.
  by apply: step Ik; rewrite (ltnW lt_jk) -addSnnS.
by exists s'; rewrite /= ?run1 -?addSnnS.
Qed.

Lemma for_each_iota (A S : Type) (I : nat -> S -> Prop) (g : nat -> A)
    (body : A -> S -> outcome S) (c : nat) (s0 : S) :
  I 0 s0 ->
  (forall k s, k < c -> I k s -> exists2 s', body (g k) s = Done s' & I k.+1 s') ->
  exists2 s', for_each [seq g k | k <- iota 0 c] body s0 = Done s' & I c s'.
Proof.
by move=> I0 step; apply: (@for_each_iota_from _ _ I).
Qed.

(* --------------------------------------------------------------------- *)
(* range, indexing                                                       *)
(* --------------------------------------------------------------------- *)

(* range(f, n + 1, q) for 0 < q: the f + k*q that are at most n. *)
Lemma py_range_nat (f n q : nat) :
  0 < q ->
  exists2 c, py_range (Z.of_nat f) (Z.of_nat n + 1) (Z.of_nat q)
             = Done [seq Z.of_nat (f + k * q) | k <- iota 0 c]
           & forall k, (k < c) = (f + k * q <= n).
Proof.
move=> q_gt0; rewrite /py_range /range_len.
have /Z.eqb_neq->: Z.of_nat q <> 0%Z by nat_lia.
have /Z.ltb_lt->: (0 < Z.of_nat q)%Z by nat_lia.
set A := (_ - 1)%Z; exists (Z.to_nat (A / Z.of_nat q)).
  congr Done; apply: eq_map => k.
  by rewrite Nat2Z.inj_add Nat2Z.inj_mul.
move=> k; have qZ_gt0: (0 < Z.of_nat q)%Z by nat_lia.
have := Z.div_mod A (Z.of_nat q); have := Z.mod_pos_bound A _ qZ_gt0.
move: (A / _)%Z (A mod _)%Z => d r; rewrite {}/A => r_bound def_A.
apply/idP/idP => H; coq_nat; nia.
Qed.

Lemma range_empty (start stop step : Z) :
  (0 < step)%Z -> (stop <= start)%Z -> py_range start stop step = Done [::].
Proof.
move=> step_gt0 le_stop; rewrite /py_range /range_len.
have /Z.eqb_neq->: step <> 0%Z by lia.
have /Z.ltb_lt->: (0 < step)%Z by [].
suff ->: Z.to_nat ((stop - start + step - 1) / step) = 0 by [].
have: ((stop - start + step - 1) / step < 1)%Z.
  by apply: Z.div_lt_upper_bound; lia.
lia.
Qed.

Lemma position_nat (a : marks) (i : nat) :
  i < size (cells a) -> position a (Z.of_nat i) = Done i.
Proof.
move=> lt_i; rewrite /position /py_len.
have /Z.leb_le->: (0 <= Z.of_nat i)%Z by lia.
have /Z.ltb_lt->: (Z.of_nat i < Z.of_nat (size (cells a)))%Z by nat_lia.
by rewrite /= Nat2Z.id.
Qed.

Lemma getitem_nat (a : marks) (i : nat) :
  i < size (cells a) ->
  getitem a (Z.of_nat i)
  = Done (nth false (cells a) i, Marks (cells a) (Z.of_nat i :: touched a)).
Proof. by move=> lt_i; rewrite /getitem position_nat. Qed.

Lemma setitem_nat (a : marks) (i : nat) (b : bool) :
  i < size (cells a) ->
  setitem a (Z.of_nat i) b
  = Done (Marks (set_nth false (cells a) i b) (Z.of_nat i :: touched a)).
Proof. by move=> lt_i; rewrite /setitem position_nat. Qed.

(* --------------------------------------------------------------------- *)
(* Primes among the odd candidates                                       *)
(* --------------------------------------------------------------------- *)

Lemma even_prime e : ~~ odd e -> 2 < e -> prime e = false.
Proof.
move=> even_e lt_2e; apply/negP => /primeP[_ /(_ 2)].
rewrite dvdn2 even_e => /(_ isT) /= /eqP eq_e.
by rewrite -eq_e in lt_2e.
Qed.

(* The primes up to e + 2, for an even e. *)
Lemma primes_upto_next e :
  ~~ odd e -> 0 < e ->
  primes_upto e.+2
  = if prime e.+1 then rcons (primes_upto e) e.+1 else primes_upto e.
Proof.
move=> even_e e_gt0.
rewrite /primes_upto -[e.+3]addn2 iotaD filter_cat add0n /=.
rewrite (@even_prime e.+2) /= ?negbK //.
by case: (prime e.+1); rewrite ?cats0 ?cats1.
Qed.

Lemma primes_upto_odd e :
  ~~ odd e -> 0 < e ->
  primes_upto e.+1
  = if prime e.+1 then rcons (primes_upto e) e.+1 else primes_upto e.
Proof.
move=> even_e e_gt0.
rewrite /primes_upto -[e.+2]addn1 iotaD filter_cat add0n /=.
by case: (prime e.+1); rewrite ?cats0 ?cats1.
Qed.

Section SieveCorrect.

Variable first : Z -> Z.
Variable start : nat -> nat.
Hypothesis first_of_nat : forall q, first (Z.of_nat q) = Z.of_nat (start q).
Hypothesis start_dvd : forall q, q %| start q.
Hypothesis start_le_sqr : forall q, start q <= q * q.

(* An odd candidate is prime when no smaller odd prime has marked it. *)
Lemma candidate_prime i : odd i -> 2 < i -> prime i <-> ~ struck start i i.
Proof.
move=> odd_i lt_2i; split=> [pr_i [q [lt_qi pr_q _ dv_q _]] | not_struck].
  by move: dv_q lt_qi; rewrite dvdn_prime2 // => /eqP->; rewrite ltnn.
apply/idPn => not_pr; apply: not_struck.
have lt_1i: 1 < i by apply: ltnW.
have i_gt0: 0 < i by do 2!apply: ltnW.
have pr_q := pdiv_prime lt_1i; have dv_q := pdiv_dvd i.
have le_sq: pdiv i ^ 2 <= i.
  by rewrite leqNgt; apply: contra not_pr; apply: ltn_pdiv2_prime.
exists (pdiv i); split=> //.
- rewrite ltn_neqAle dvdn_leq // andbT.
  by apply: contraNneq not_pr => <-.
- apply: contraLR odd_i; rewrite -!dvdn2 => dv2.
  exact: dvdn_trans dv2 dv_q.
- by apply: leq_trans le_sq; rewrite -mulnn.
Qed.

Lemma struck_next i m :
  odd i ->
  struck start i.+2 m
  <-> struck start i m \/ [/\ prime i, i %| m & start i <= m].
Proof.
move=> odd_i; split=> [[q [lt_q pr_q odd_q dv_q le_q]] | ].
  case: (ltngtP q i) => [lt_qi | lt_iq | eq_qi]; first by left; exists q.
    have eq_q: q = i.+1 by apply/eqP; rewrite eqn_leq -ltnS lt_q lt_iq.
    by move: odd_q; rewrite eq_q /= odd_i.
  by right; rewrite -eq_qi.
case=> [[q [lt_q pr_q odd_q dv_q le_q]] | [pr_i dv_i le_i]].
  by exists q; split=> //; apply: leq_trans lt_q _; rewrite -addn2 leq_addr.
by exists i; split=> //; rewrite -addn2 -addn1 leq_add2l.
Qed.

Lemma struck_below3 m : ~ struck start 3 m.
Proof.
case=> q [lt_q pr_q odd_q _ _].
by case: q lt_q pr_q odd_q => [|[|[|]]].
Qed.

Variable n : nat.

(* The inner loop marks the multiples of q from start q on. *)
Lemma mark_multiples_nat (a : marks) (q : nat) :
  0 < q -> size (cells a) = n.+1 -> within n a ->
  exists a',
    [/\ mark_multiples first (Z.of_nat n) (Z.of_nat q) a = Done a',
        size (cells a') = n.+1, within n a'
      & forall m, m <= n ->
          nth false (cells a') m
          = nth false (cells a) m && ~~ ((q %| m) && (start q <= m))].
Proof.
move=> q_gt0 size_a in_a; rewrite /mark_multiples first_of_nat.
have [c -> cP] := py_range_nat (start q) n q_gt0; rewrite /bind.
pose I k a' :=
  [/\ size (cells a') = n.+1, within n a'
    & forall m, m <= n ->
        nth false (cells a') m
        = nth false (cells a) m
          && ~~ [&& q %| m, start q <= m & m < start q + k * q]].
have [||a' run' [size_a' in_a' cells_a']] :=
    @for_each_iota _ _ I (fun k => Z.of_nat (start q + k * q))
      (fun multiple a' => setitem a' multiple false) c a.
- split=> // m _; rewrite mul0n addn0.
  by case: (q %| m); case: leqP => //=; rewrite andbT.
- move=> k a1 lt_kc [size_a1 in_a1 cells_a1].
  have le_kn: start q + k * q <= n by rewrite -cP.
  rewrite setitem_nat ?size_a1 ?ltnS //.
  eexists; first by [].
  split=> /= [||m le_mn].
  + by rewrite size_set_nth size_a1; apply/maxn_idPr.
  + rewrite /within /all_between /= -/(all_between _ _ _) -/(within n a1).
    rewrite in_a1 andbT.
    by apply/andP; split; [apply/Z.leb_le | apply/Z.leb_le]; nat_lia.
  + rewrite nth_set_nth /=; case: eqP => [-> | ne_m].
      rewrite dvdn_addr ?start_dvd // dvdn_mull // leq_addr /=.
      have ->: start q + k * q < start q + k.+1 * q by rewrite mulSn; nat_lia.
      by rewrite andbF.
    rewrite cells_a1 //; congr (_ && ~~ _).
    case dv_m: (q %| m) => //=; case le_m: (start q <= m) => //=.
    have /dvdnP[u def_m] := dv_m; have /dvdnP[v def_s] := start_dvd q.
    rewrite def_m def_s -!mulnDl !ltn_pmul2r // addnS ltnS [RHS]leq_eqVlt.
    case: eqP => // eq_u; case: ne_m.
    by rewrite def_m def_s -mulnDl eq_u.
exists a'; split=> // m le_mn; rewrite cells_a' //; congr (_ && ~~ (_ && _)).
have: ~~ (c < c) by rewrite ltnn.
by rewrite cP -ltnNge => /(leq_ltn_trans le_mn)->; rewrite andbT.
Qed.

(* One turn of the outer loop, at the odd candidate i. *)
Lemma sieve_step_nat (i : nat) (s : sieve) :
  odd i -> 2 < i -> i <= n ->
  [/\ size (cells (isPrime s)) = n.+1, within n (isPrime s),
      forall m, m <= n ->
        nth false (cells (isPrime s)) m = false <-> struck start i m
    & primes s = [seq Z.of_nat p | p <- primes_upto i.-1]] ->
  exists2 s', sieve_step first (Z.of_nat n) (Z.of_nat i) s = Done s'
    & [/\ size (cells (isPrime s')) = n.+1, within n (isPrime s'),
          forall m, m <= n ->
            nth false (cells (isPrime s')) m = false <-> struck start i.+2 m
        & primes s' = [seq Z.of_nat p | p <- primes_upto i.+1]].
Proof.
move=> odd_i lt_2i le_in [size_s in_s cells_s primes_s].
have def_i: i.-1.+1 = i by rewrite prednK // ltnW // ltnW.
have in_i: (0 <=? Z.of_nat i)%Z && (Z.of_nat i <=? Z.of_nat n)%Z.
  by apply/andP; split; apply/Z.leb_le; nat_lia.
have def_primes:
  primes_upto i.+1
  = if prime i then rcons (primes_upto i.-1) i else primes_upto i.-1.
  rewrite -{1 2 4}def_i; apply: primes_upto_next.
    by move: odd_i; rewrite -{1}def_i.
  by rewrite -ltnS def_i ltnW.
rewrite /sieve_step getitem_nat ?size_s ?ltnS //= /bind.
case marked: (nth false _ i) => /=.
  have pr_i: prime i.
    by apply/candidate_prime => // /cells_s; rewrite marked => /(_ le_in).
  have [|||a' [-> size_a' in_a' cells_a']] :=
      @mark_multiples_nat (Marks (cells (isPrime s)) (Z.of_nat i :: touched (isPrime s))) i.
  - exact: ltnW (ltnW lt_2i).
  - by [].
  - by rewrite /within /all_between /= in_i.
  eexists; first by []; split=> //= [m le_mn|].
    rewrite cells_a' // struck_next // -cells_s //.
    case: (nth false _ m) => /=; last by split=> //; left.
    rewrite -[(i %| m) && _]negbK; case: (boolP ((i %| m) && _)) => /=.
      by case/andP=> dv le; split=> // _; right.
    by move=> no; split=> // -[//|[_ dv le]]; rewrite dv le in no.
  by rewrite def_primes pr_i map_rcons primes_s.
have not_pr: prime i = false.
  apply/negbTE/negP => /candidate_prime; apply=> //.
  by apply/cells_s.
eexists; first by []; split=> //= [|m le_mn|].
- by rewrite /within /all_between /= in_i.
- rewrite struck_next // not_pr cells_s //.
  by split=> [|[|[]]] //; left.
by rewrite def_primes not_pr.
Qed.

(* The states the loops start from and end in. *)
Lemma list_repeat_nat (A : Type) (x : A) (k : nat) :
  list_repeat x (Z.of_nat k + 1) = nseq k.+1 x.
Proof. by rewrite /list_repeat; congr nseq; lia. Qed.

Lemma sieve_run_below3 (r : Z) :
  (r < 3)%Z ->
  sieve_run first r
  = Done (Sieve (Marks (list_repeat true (r + 1)) [::])
                (if (2 <=? r)%Z then [:: 2%Z] else [::])).
Proof. by move=> lt_r3; rewrite /sieve_run range_empty //; lia. Qed.

Lemma sieve_run_nat :
  exists s,
    [/\ sieve_run first (Z.of_nat n) = Done s,
        size (cells (isPrime s)) = n.+1, within n (isPrime s)
      & primes s = [seq Z.of_nat p | p <- primes_upto n]].
Proof.
case: (ltnP n 3) => [lt_n3 | le_3n].
  rewrite sieve_run_below3; first by nat_lia.
  eexists; split=> //=; first by rewrite list_repeat_nat size_nseq.
  by case: n lt_n3 => [|[|[|]]].
rewrite /sieve_run list_repeat_nat.
have /Z.leb_le->: (2 <= Z.of_nat n)%Z by nat_lia.
have [c -> cP] := @py_range_nat 3 n 2 isT; rewrite /bind.
pose I k s :=
  [/\ size (cells (isPrime s)) = n.+1, within n (isPrime s),
      forall m, m <= n ->
        nth false (cells (isPrime s)) m = false <-> struck start (3 + k * 2) m
    & primes s = [seq Z.of_nat p | p <- primes_upto (2 + k * 2)]].
have [||s run_s [size_s in_s _ primes_s]] :=
    @for_each_iota _ _ I (fun k => Z.of_nat (3 + k * 2))
      (sieve_step first (Z.of_nat n)) c
      (Sieve (Marks (nseq n.+1 true) [::]) [:: 2%Z]).
- split=> // [|m le_mn]; first by rewrite /= size_nseq.
  rewrite -[cells _]/(nseq n.+1 true) nth_nseq ltnS le_mn.
  by split=> // /struck_below3.
- move=> k s; rewrite cP => le_in Ik.
  have odd_i: odd (3 + k * 2) by rewrite oddD oddM andbF.
  by have [s' -> Ik'] := sieve_step_nat odd_i isT le_in Ik; exists s'.
exists s; split=> //; rewrite primes_s; congr (map _ _).
have: ~~ (c < c) by rewrite ltnn.
rewrite cP -ltnNge ltnS leq_eqVlt => /predU1P[-> // | lt_n].
have c_gt0: 0 < c by rewrite cP.
have: c.-1 < c by rewrite prednK.
rewrite cP => le_n; have def_n: n = (c.-1 * 2).+3 by nat_lia.
have ->: 2 + c * 2 = (c.-1 * 2).+4 by nat_lia.
have even_e: ~~ odd (c.-1 * 2).+2 by rewrite /= negbK oddM andbF.
by rewrite def_n primes_upto_next // -primes_upto_odd.
Qed.

End SieveCorrect.

(* The program's sieve and the variant marking from i*i on. *)
Lemma GetPrimesUpTo_run_nat (n : nat) :
  exists s,
    [/\ GetPrimesUpTo_run (Z.of_nat n) = Done s,
        size (cells (isPrime s)) = n.+1, within n (isPrime s)
      & primes s = [seq Z.of_nat p | p <- primes_upto n]].
Proof.
rewrite /GetPrimesUpTo_run.
apply: (@sieve_run_nat (fun i => i) id) => [q|q|q] //.
by case: q => // q; rewrite leq_pmulr.
Qed.

Lemma GetPrimesUpTo_nat (n : nat) :
  GetPrimesUpTo (Z.of_nat n) = Done [seq Z.of_nat p | p <- primes_upto n].
Proof.
rewrite /GetPrimesUpTo; have [s [-> _ _ def_primes]] := GetPrimesUpTo_run_nat n.
by rewrite /= def_primes.
Qed.

Lemma GetPrimesUpTo_square_nat (n : nat) :
  GetPrimesUpTo_square (Z.of_nat n)
  = Done [seq Z.of_nat p | p <- primes_upto n].
Proof.
rewrite /GetPrimesUpTo_square.
have [q|q|q|s [-> _ _ def_primes]] :=
    @sieve_run_nat (fun i => (i * i)%Z) (fun q => q * q) _ _ _ n.
- by rewrite Nat2Z.inj_mul.
- exact: dvdn_mulr.
- exact: leqnn.
by rewrite /= def_primes.
Qed.

(* --------------------------------------------------------------------- *)
(* GetPrimeExponent                                                      *)
(* --------------------------------------------------------------------- *)

Lemma floor_sum_small (p r K : nat) :
  1 < p -> r <= 1 -> \sum_(1 <= k < K.+1) r %/ p ^ k = 0.
Proof.
move=> lt_1p le_r1; rewrite big_nat big1 // => k /andP[k_gt0 _].
rewrite divn_small //; apply: (leq_ltn_trans le_r1).
by apply: (leq_trans lt_1p); rewrite -{1}(expn1 p) leq_exp2l.
Qed.

Lemma floor_sum_next (p r K : nat) :
  \sum_(1 <= k < K.+2) r %/ p ^ k
  = r %/ p + \sum_(1 <= k < K.+1) (r %/ p) %/ p ^ k.
Proof.
rewrite big_ltn // expn1 big_add1 /=; congr (_ + _).
by apply: eq_bigr => k _; rewrite expnS divnMA.
Qed.

Lemma exponent_loop_nat (fuel p r K : nat) (e : Z) :
  1 < p -> 0 < fuel -> r < 2 ^ fuel -> r <= K ->
  exponent_loop fuel (Z.of_nat p) (Z.of_nat r) e
  = Done (e + Z.of_nat (\sum_(1 <= k < K.+1) r %/ p ^ k))%Z.
Proof.
move=> lt_1p; elim: fuel r K e => // fuel IHfuel r K e _ lt_r le_rK /=.
case: (ltnP 1 r) => [lt_1r | le_r1]; last first.
  have /Z.ltb_ge->: (Z.of_nat r <= 1)%Z by nat_lia.
  by rewrite floor_sum_small // Z.add_0_r.
have /Z.ltb_lt->: (1 < Z.of_nat r)%Z by nat_lia.
rewrite /floordiv; have /Z.eqb_neq->: Z.of_nat p <> 0%Z by nat_lia.
rewrite /bind -Z_of_nat_div.
have le_div: r %/ p <= r %/ 2 by apply: leq_div2l.
have def_r := divn_eq r 2; have lt_mod := @ltn_pmod r 2 isT.
case: K le_rK => [|K] le_rK; first by nat_lia.
have fuel_gt0: 0 < fuel.
  by case: (fuel) lt_r => //; rewrite expn1 => lt_r; nat_lia.
rewrite expnS in lt_r.
rewrite (IHfuel _ K) //; try by nat_lia.
by rewrite floor_sum_next Nat2Z.inj_add Z.add_assoc.
Qed.

Lemma legendre_sum_nat (n p K : nat) :
  legendre_sum (Z.of_nat n) (Z.of_nat p) K
  = Z.of_nat (\sum_(1 <= k < K.+1) n %/ p ^ k).
Proof.
rewrite /legendre_sum (big_morph Z.of_nat Nat2Z.inj_add (erefl _)).
by apply: eq_bigr => k _; rewrite Z_of_nat_div Z_of_nat_exp.
Qed.

(* More fuel changes nothing for a run that has ended. *)
Lemma exponent_loop_more (fuel fuel' : nat) (p r e : Z) (o : outcome Z) :
  fuel <= fuel' -> o <> OutOfFuel ->
  exponent_loop fuel p r e = o -> exponent_loop fuel' p r e = o.
Proof.
move=> le_fuel ended; elim: fuel fuel' r e le_fuel => [|fuel IHfuel].
  by move=> fuel' r e _ /= def_o; rewrite -def_o in ended.
case=> // fuel' r e; rewrite ltnS /= => le_fuel.
case: (1 <? r)%Z => //; case: (floordiv r p) => //= r'.
exact: IHfuel.
Qed.

(* With p = 1 the running value never changes. *)
Lemma exponent_loop_forever (fuel : nat) (r e : Z) :
  (1 < r)%Z -> exponent_loop fuel 1 r e = OutOfFuel.
Proof.
move=> lt_1r; elim: fuel e => // fuel IHfuel e /=.
by have /Z.ltb_lt-> := lt_1r; rewrite /floordiv /= Z.div_1_r.
Qed.

Lemma GetPrimeExponent_nat (n p : nat) :
  1 < p ->
  GetPrimeExponent (Z.of_nat n) (Z.of_nat p)
  = Done (Z.of_nat (\sum_(1 <= k < n.+1) n %/ p ^ k)).
Proof.
move=> lt_1p; rewrite /GetPrimeExponent /GetPrimeExponent_fuel Nat2Z.id.
rewrite (@exponent_loop_nat _ _ _ n) //.
by apply: leq_trans (ltn_expl n (ltnSn 1)) _; rewrite leq_exp2l.
Qed.

Lemma GetPrimeExponent_prime (n p : nat) :
  prime p ->
  GetPrimeExponent (Z.of_nat n) (Z.of_nat p) = Done (Z.of_nat (logn p n`!)).
Proof.
by move=> pr_p; rewrite GetPrimeExponent_nat ?prime_gt1 // logn_fact.
Qed.

Lemma exponent_loop_ends (fuel : nat) (p r e : Z) :
  (2 <= p)%Z -> (0 <= r)%Z -> (Z.to_nat r < fuel)%coq_nat ->
  exists v, exponent_loop fuel p r e = Done v.
Proof.
move=> le_2p le_0r /ltP lt_r.
have def_p: p = Z.of_nat (Z.to_nat p) by rewrite Z2Nat.id //; lia.
have def_r: r = Z.of_nat (Z.to_nat r) by rewrite Z2Nat.id.
have lt_1q: 1 < Z.to_nat p by nat_lia.
move: (Z.to_nat p) (Z.to_nat r) def_p def_r lt_1q lt_r => q n -> -> lt_1q lt_n.
eexists; apply: (@exponent_loop_nat _ _ _ n) => //.
  exact: leq_ltn_trans lt_n.
apply: leq_trans (ltn_expl n (ltnSn 1)) _.
by rewrite leq_exp2l // ltnW.
Qed.

(* The fuel of GetPrimeExponent is enough for every run that returns or
   raises, whatever N and p are. *)
Lemma GetPrimeExponent_fuel_enough (fuel : nat) (N p : Z) (o : outcome Z) :
  o <> OutOfFuel ->
  GetPrimeExponent_fuel fuel N p = o -> GetPrimeExponent N p = o.
Proof.
rewrite /GetPrimeExponent /GetPrimeExponent_fuel => ended.
case: fuel => [def_o | fuel]; first by rewrite -def_o in ended.
case: (Z.le_gt_cases N 1) => [le_N1 | lt_1N] /=.
  by have /Z.ltb_ge-> := le_N1.
have /Z.ltb_lt-> := lt_1N; rewrite /floordiv.
case: Z.eqb_spec => // ne_p0; rewrite /bind.
have [le_2p | eq_p1 | lt_p0]: [\/ (2 <= p)%Z, p = 1%Z | (p < 0)%Z].
- case: (Z.le_gt_cases 2 p) => [le_2p | lt_p2]; first by constructor 1.
  by case: (Z.eq_dec p 1) => [eq_p1 | ne_p1]; [constructor 2 | constructor 3; lia].
- move=> def_o; have le_0r: (0 <= N / p)%Z by apply: Z.div_pos; lia.
  have lt_rN: (N / p < N)%Z by apply: Z.div_lt; lia.
  have [|v run_N] := @exponent_loop_ends (Z.to_nat N) p (N / p) (N / p) le_2p le_0r.
    by lia.
  have := exponent_loop_more (leq_maxl fuel (Z.to_nat N)) ended def_o.
  by rewrite (exponent_loop_more (leq_maxr fuel (Z.to_nat N)) _ run_N) // => <-.
- rewrite eq_p1 Z.div_1_r exponent_loop_forever // => def_o.
  by rewrite -def_o in ended.
have lt_r0: (N / p < 0)%Z.
  have := Z.div_mod N p ne_p0; have := Z.mod_neg_bound N p lt_p0.
  by move: (N / p)%Z (N mod p)%Z => q r; nia.
case: fuel => [def_o | fuel]; first by rewrite -def_o in ended.
have [k ->]: exists k, Z.to_nat N = k.+1 by exists (Z.to_nat N).-1; lia.
by rewrite /=; have /Z.ltb_ge->: (N / p <= 1)%Z by lia.
Qed.

(* --------------------------------------------------------------------- *)
(* The counter of exponents                                              *)
(* --------------------------------------------------------------------- *)

Lemma counter_set_fresh (c : counter) (k v : Z) :
  k \notin [seq kv.1 | kv <- c] -> counter_set c k v = rcons c (k, v).
Proof.
elim: c => [|[k' v'] c IHc] //=; rewrite inE negb_or eq_sym => /andP[ne_k fresh].
by rewrite -[(k' =? k)%Z]/(k' == k) (negbTE ne_k) IHc.
Qed.

Lemma fill_exponents_from (N : Z) (f : Z -> Z) (ps : seq Z) (c : counter) :
  (forall p, p \in ps -> GetPrimeExponent N p = Done (f p)) ->
  uniq ([seq kv.1 | kv <- c] ++ ps) ->
  for_each ps
    (fun p c' => let* e := GetPrimeExponent N p in Done (counter_set c' p e)) c
  = Done (c ++ [seq (p, f p) | p <- ps]).
Proof.
elim: ps c => [|p ps IHps] c exp_ps uniq_ps /=; first by rewrite cats0.
rewrite exp_ps ?mem_head //= counter_set_fresh.
  by move: uniq_ps; rewrite cat_uniq /= negb_or => /and3P[_ /andP[]].
rewrite IHps ?cat_rcons // => [q q_ps|]; first by rewrite exp_ps // inE q_ps orbT.
by rewrite map_rcons /= cat_rcons.
Qed.

Lemma fill_exponents_nat (n : nat) :
  fill_exponents (Z.of_nat n) [seq Z.of_nat p | p <- primes_upto n]
  = Done [seq (Z.of_nat p, Z.of_nat (logn p n`!)) | p <- primes_upto n].
Proof.
pose f (p : Z) := Z.of_nat (logn (Z.to_nat p) n`!).
rewrite /fill_exponents (@fill_exponents_from _ f).
- move=> pz /mapP[p p_in ->]; move: p_in.
  rewrite mem_primes_upto => /andP[_ pr_p].
  by rewrite GetPrimeExponent_prime // /f Nat2Z.id.
- by rewrite map_inj_uniq ?primes_upto_uniq //; apply: Nat2Z.inj.
by rewrite -map_comp; congr Done; apply: eq_map => p; rewrite /= /f Nat2Z.id.
Qed.

(* --------------------------------------------------------------------- *)
(* The product modulo MODULUS_TERM                                       *)
(* --------------------------------------------------------------------- *)

Lemma accumulate_step_range (r e : Z) :
  (0 <= accumulate_step r e < MODULUS_TERM)%Z.
Proof. by rewrite /accumulate_step; apply: Z.mod_pos_bound. Qed.

Lemma foldl_accumulate_range (r : Z) (es : seq Z) :
  (0 <= r < MODULUS_TERM)%Z ->
  (0 <= foldl accumulate_step r es < MODULUS_TERM)%Z.
Proof.
elim: es r => [|e es IHes] r r_range //=.
by apply: IHes; apply: accumulate_step_range.
Qed.

Lemma scanl_accumulate_range (r : Z) (es : seq Z) :
  all_between 0 (MODULUS_TERM - 1) (scanl accumulate_step r es).
Proof.
rewrite /all_between; elim: es r => [|e es IHes] r //=; rewrite IHes andbT.
have [ge0 ltM] := accumulate_step_range r e; rewrite /MODULUS_TERM in ltM.
by apply/andP; split; apply/Z.leb_le; lia.
Qed.

Lemma foldl_accumulate_mod (r : Z) (es : seq Z) :
  (foldl accumulate_step r es mod MODULUS_TERM
   = (r * divisor_product es) mod MODULUS_TERM)%Z.
Proof.
rewrite /divisor_product; elim: es r => [|e es IHes] r /=.
  by rewrite big_nil Z.mul_1_r.
by rewrite IHes big_cons /accumulate_step Z.mul_mod_idemp_l // Z.mul_assoc.
Qed.

Lemma accumulateE (es : seq Z) :
  accumulate es = (divisor_product es mod MODULUS_TERM)%Z.
Proof.
rewrite -[divisor_product es]Z.mul_1_l -foldl_accumulate_mod Z.mod_small //.
exact: foldl_accumulate_range.
Qed.

Lemma divisor_product_perm (es es' : seq Z) :
  perm_eq es es' -> divisor_product es = divisor_product es'.
Proof. exact: perm_big. Qed.

Lemma last_accumulate_trace (es : seq Z) :
  last 1%Z (accumulate_trace es) = accumulate es.
Proof.
rewrite /accumulate_trace /accumulate.
by elim: es 1%Z => [|e es IHes] r //=.
Qed.

(* --------------------------------------------------------------------- *)
(* NumDivisors                                                           *)
(* --------------------------------------------------------------------- *)

Lemma counter_values_nat (n : nat) :
  counter_values
    [seq (Z.of_nat p, Z.of_nat (logn p n`!)) | p <- primes_upto n]
  = factorial_exponents n.
Proof. by rewrite /counter_values -map_comp. Qed.

Lemma NumDivisors_nat (n : nat) :
  NumDivisors (Z.of_nat n) = Done (accumulate (factorial_exponents n)).
Proof.
rewrite /NumDivisors GetPrimesUpTo_nat /= fill_exponents_nat /=.
by rewrite counter_values_nat.
Qed.

Lemma divisor_product_fact (n : nat) :
  divisor_product (factorial_exponents n)
  = Z.of_nat (size (divisors (n`! ^ 2))).
Proof.
rewrite size_divisors_fact_sqr /divisor_product big_map.
rewrite (big_morph Z.of_nat Nat2Z.inj_mul (erefl _)).
by apply: eq_bigr => p _; rewrite -addn1 Nat2Z.inj_add Nat2Z.inj_mul.
Qed.

Lemma NumDivisors_divisors (n : nat) :
  NumDivisors (Z.of_nat n)
  = Done (Z.of_nat (size (divisors (n`! ^ 2))) mod MODULUS_TERM)%Z.
Proof. by rewrite NumDivisors_nat accumulateE divisor_product_fact. Qed.

(* --------------------------------------------------------------------- *)
(* Trial division                                                        *)
(* --------------------------------------------------------------------- *)

Lemma trial_odd_nat (fuel d n : nat) :
  0 < d ->
  trial_odd fuel (Z.of_nat d) (Z.of_nat n)
  = all (fun j => (n < (d + j * 2) ^ 2) || ~~ (d + j * 2 %| n)) (iota 0 fuel).
Proof.
elim: fuel d => // fuel IHfuel d d_gt0.
rewrite [RHS]/= -[iota 1 fuel]/(iota (1 + 0) fuel) iotaDl all_map.
rewrite [LHS]/= mul0n addn0 -mulnn.
rewrite -Nat2Z.inj_mul Z_of_nat_dvd // -[2%Z]/(Z.of_nat 2) -Nat2Z.inj_add.
case: (ltnP n (d * d)) => [lt_n | le_n] /=.
  have /Z.ltb_lt->: (Z.of_nat n < Z.of_nat (d * d))%Z by nat_lia.
  apply/esym/allP => j _ /=.
  suff ->: n < (d + (1 + j) * 2) ^ 2 by [].
  by rewrite -mulnn; nat_nia.
have /Z.ltb_ge->: (Z.of_nat (d * d) <= Z.of_nat n)%Z by nat_lia.
case: (d %| n) => //=.
rewrite (IHfuel (d + 2)) ?addn_gt0 ?d_gt0 //; apply: eq_all => j /=.
by rewrite mulnDl mul1n addnA.
Qed.

Lemma odd_prime_trial (fuel n : nat) :
  odd n -> 2 < n -> n < (3 + fuel * 2) ^ 2 ->
  prime n
  = all (fun j => (n < (3 + j * 2) ^ 2) || ~~ (3 + j * 2 %| n)) (iota 0 fuel).
Proof.
move=> odd_n lt_2n lt_fuel; apply/idP/allP => [pr_n j _ | no_div].
  apply/orP; case dv: (_ %| n); last by right.
  left; have /primeP[_ /(_ _ dv)] := pr_n; rewrite /= => /eqP <-.
  by rewrite -mulnn; nat_nia.
apply/idPn => not_pr.
have lt_1n: 1 < n by apply: ltnW.
have pr_q := pdiv_prime lt_1n; have dv_q := pdiv_dvd n.
have le_sq: pdiv n ^ 2 <= n.
  by rewrite leqNgt; apply: contra not_pr; apply: ltn_pdiv2_prime; apply: ltnW.
have odd_q: odd (pdiv n).
  apply: contraLR odd_n; rewrite -!dvdn2 => dv2.
  exact: dvdn_trans dv2 dv_q.
have lt_1q := prime_gt1 pr_q.
have def_q := odd_double_half (pdiv n); rewrite odd_q -muln2 /= add1n in def_q.
pose j := (pdiv n)./2.-1.
have eq_q: pdiv n = 3 + j * 2.
  by rewrite /j; case: _./2 def_q => [|h] /= def_q; nat_lia.
rewrite eq_q -!mulnn in le_sq lt_fuel dv_q *.
have /no_div: j \in iota 0 fuel by rewrite mem_iota /=; nat_nia.
by rewrite dv_q -!mulnn ltnNge le_sq.
Qed.

Lemma ZprimeE (n : nat) : Zprime (Z.of_nat n) = prime n.
Proof.
rewrite /Zprime; case: (ltnP n 2) => [lt_n2 | le_2n].
  have /Z.ltb_lt->: (Z.of_nat n < 2)%Z by nat_lia.
  by case: n lt_n2 => [|[|]].
have /Z.ltb_ge->: (2 <= Z.of_nat n)%Z by nat_lia.
case: (n =P 2) => [-> // | /eqP ne_n2].
have /Z.eqb_neq->: Z.of_nat n <> 2%Z by nat_lia.
have lt_2n: 2 < n by rewrite ltn_neqAle eq_sym ne_n2.
rewrite (@Z_of_nat_dvd n 2) // dvdn2.
case odd_n: (odd n) => /=; last by rewrite even_prime ?odd_n.
rewrite (@trial_odd_nat _ 3) // -odd_prime_trial //.
have [] := Z.sqrt_spec (Z.of_nat n); first by lia.
move: (Z.sqrt _) (Z.sqrt_nonneg (Z.of_nat n)) => s s_ge0 _.
move=> lt_s; have := Z2Nat.id s s_ge0; move: (Z.to_nat s) => t def_s.
by rewrite -def_s in lt_s; rewrite -mulnn; nat_nia.
Qed.

Lemma Zseq_iota (a len : nat) :
  Zseq (Z.of_nat a) len = [seq Z.of_nat k | k <- iota a len].
Proof.
elim: len a => //= len IHlen a; congr (_ :: _).
by rewrite -IHlen; congr Zseq; lia.
Qed.

Lemma trial_primes_nat (n : nat) :
  trial_primes (Z.of_nat n) = [seq Z.of_nat p | p <- primes_upto n].
Proof.
rewrite /trial_primes /primes_upto.
have ->: Z.to_nat (Z.of_nat n + 1) = n.+1 by lia.
rewrite (Zseq_iota 0) filter_map; congr (map _ _).
by apply: eq_filter => p /=; rewrite ZprimeE.
Qed.

Lemma GetPrimesUpTo_trial (N : Z) :
  (0 <= N)%Z -> GetPrimesUpTo N = Done (trial_primes N).
Proof.
by move=> /Z2Nat.id <-; rewrite GetPrimesUpTo_nat trial_primes_nat.
Qed.

Lemma NumDivisors_fastE (N : Z) :
  (0 <= N < 2 ^ 20)%Z -> NumDivisors N = Done (NumDivisors_fast N).
Proof.
case=> /Z2Nat.id; move: (Z.to_nat N) => n <- {N} lt_n.
rewrite NumDivisors_nat /NumDivisors_fast trial_primes_nat -map_comp.
congr (Done (accumulate _)); apply/eq_in_map => p.
rewrite mem_primes_upto /fast_exponent /GetPrimeExponent_fuel => /andP[_ pr_p].
rewrite /comp; cbv beta.
rewrite (@exponent_loop_nat 20 p n n) ?prime_gt1 ?logn_fact //.
apply/ltP/Nat2Z.inj_lt.
by rewrite Z_of_nat_exp.
Qed.

(* --------------------------------------------------------------------- *)
(* The list of primes, as a list of integers                             *)
(* --------------------------------------------------------------------- *)

Lemma Z_of_nat_ltb (a b : nat) : (Z.of_nat a <? Z.of_nat b)%Z = (a < b).
Proof.
by apply/idP/idP => [/Z.ltb_lt lt_ab | lt_ab]; [|apply/Z.ltb_lt]; nat_lia.
Qed.

Lemma primes_list_sorted (n : nat) :
  sorted Z.ltb [seq Z.of_nat p | p <- primes_upto n].
Proof.
rewrite sorted_map (@eq_sorted _ _ ltn) ?primes_upto_sorted // => a b /=.
exact: Z_of_nat_ltb.
Qed.

Lemma primes_list_uniq (n : nat) : uniq [seq Z.of_nat p | p <- primes_upto n].
Proof. by rewrite map_inj_uniq ?primes_upto_uniq //; apply: Nat2Z.inj. Qed.

Lemma mem_primes_list (n : nat) (p : Z) :
  (p \in [seq Z.of_nat q | q <- primes_upto n])
  = [&& (2 <=? p)%Z, (p <=? Z.of_nat n)%Z & prime (Z.to_nat p)].
Proof.
apply/mapP/and3P => [[q q_in ->] | [/Z.leb_le le_2p /Z.leb_le le_pn pr_p]].
  move: q_in; rewrite mem_primes_upto Nat2Z.id => /andP[le_qn pr_q].
  have lt_1q := prime_gt1 pr_q.
  by split=> //; apply/Z.leb_le; nat_lia.
exists (Z.to_nat p); last by rewrite Z2Nat.id //; lia.
by rewrite mem_primes_upto pr_p andbT; nat_lia.
Qed.

Lemma primes_upto_small (n : nat) : n < 2 -> primes_upto n = [::].
Proof. by case: n => [|[|]]. Qed.

(* ===================================================================== *)
(* The claims                                                            *)
(* ===================================================================== *)

(** C1: for 1 <= N <= 10^6, NumDivisors(N) is the number of positive
    divisors of (N!)^2, counted by trying every candidate divisor, reduced
    modulo 1000007; this is also the number of pairs (x, y) of positive
    integers with 1/x + 1/y = 1/N!, each counted once. *)
Theorem NumDivisors_counts_divisors (N : Z) :
  (1 <= N <= 1000000)%Z ->
  let m := (Z.to_nat N)`! in
  [/\ NumDivisors N
      = Done (Z.of_nat (count_divisors (m ^ 2)) mod MODULUS_TERM)%Z,
      count_divisors (m ^ 2) = size (solutions m),
      uniq (solutions m)
    & forall x y, ((x, y) \in solutions m) = is_solution m (x, y)].
Proof.
case=> le_1N _ m; have m_gt0: 0 < m by apply: fact_gt0.
have sq_gt0: 0 < m ^ 2 by rewrite expn_gt0 m_gt0.
split; last by move=> x y; apply: mem_solutions.
- rewrite -{1}(Z2Nat.id N); first by lia.
  by rewrite NumDivisors_divisors count_divisorsE.
- by rewrite count_divisorsE // size_solutions.
exact: solutions_uniq.
Qed.

Lemma NumDivisors_counts_divisors_witness :
  let m := (Z.to_nat 3)`! in
  [/\ NumDivisors 3
      = Done (Z.of_nat (count_divisors (m ^ 2)) mod MODULUS_TERM)%Z,
      count_divisors (m ^ 2) = size (solutions m),
      uniq (solutions m)
    & forall x y, ((x, y) \in solutions m) = is_solution m (x, y)].
Proof. apply: (NumDivisors_counts_divisors (N := 3)); lia. Defined.

(** C2: for N >= 1 and a prime p <= N, GetPrimeExponent(N, p) returns
    floor(N/p) + floor(N/p^2) + ... (any number K >= N of terms), every
    division being the floor division of integers, and this is the
    multiplicity of p in N!; GetPrimeExponent(10, 2) is 8. *)
Theorem GetPrimeExponent_legendre (N p : Z) (K : nat) :
  (1 <= N)%Z -> prime (Z.to_nat p) -> (p <= N)%Z -> (N <= Z.of_nat K)%Z ->
  [/\ GetPrimeExponent N p = Done (legendre_sum N p K),
      legendre_sum N p K = Z.of_nat (logn (Z.to_nat p) (Z.to_nat N)`!)
    & GetPrimeExponent 10 2 = Done 8%Z].
Proof.
move=> le_1N pr_p _ le_NK; have lt_1p := prime_gt1 pr_p.
have def_N: N = Z.of_nat (Z.to_nat N) by rewrite Z2Nat.id //; lia.
have def_p: p = Z.of_nat (Z.to_nat p) by rewrite Z2Nat.id //; nat_lia.
have le_nK: Z.to_nat N <= K by nat_lia.
move: (Z.to_nat N) (Z.to_nat p) def_N def_p pr_p lt_1p le_nK.
move=> n q -> -> pr_q lt_1q le_nK.
have def_sum: \sum_(1 <= k < K.+1) n %/ q ^ k = logn q n`!.
  have tail0: \sum_(n.+1 <= k < K.+1) n %/ q ^ k = 0.
    rewrite big_nat big1 // => k /andP[lt_nk _].
    rewrite divn_small //; apply: (leq_trans lt_nk).
    exact: ltnW (ltn_expl k lt_1q).
  by rewrite logn_fact // [LHS](big_cat_nat (n := n.+1)) //= tail0 addn0.
split.
- by rewrite legendre_sum_nat def_sum GetPrimeExponent_prime.
- by rewrite legendre_sum_nat def_sum.
by vm_compute.
Qed.

Lemma GetPrimeExponent_legendre_witness :
  [/\ GetPrimeExponent 10 2 = Done (legendre_sum 10 2 10),
      legendre_sum 10 2 10 = Z.of_nat (logn (Z.to_nat 2) (Z.to_nat 10)`!)
    & GetPrimeExponent 10 2 = Done 8%Z].
Proof.
by apply: (GetPrimeExponent_legendre (N := 10) (p := 2) (K := 10)); [lia | | lia | lia].
Defined.

(** C3: for limit >= 0, GetPrimesUpTo(limit) returns the primes of
    [2, limit] and nothing else, in strictly ascending order (hence without
    duplicates), the empty list when limit < 2; GetPrimesUpTo(10) is
    [2, 3, 5, 7], GetPrimesUpTo(1) and GetPrimesUpTo(0) are []. *)
Theorem GetPrimesUpTo_primes (limit : Z) :
  (0 <= limit)%Z ->
  exists ps,
    [/\ GetPrimesUpTo limit = Done ps,
        sorted Z.ltb ps /\ uniq ps,
        forall p,
          (p \in ps) = [&& (2 <=? p)%Z, (p <=? limit)%Z & prime (Z.to_nat p)],
        (limit < 2)%Z -> ps = [::]
      & [/\ GetPrimesUpTo 10 = Done [:: 2; 3; 5; 7]%Z,
            GetPrimesUpTo 1 = Done [::] & GetPrimesUpTo 0 = Done [::]]].
Proof.
move=> /Z2Nat.id; move: (Z.to_nat limit) => n <-.
exists [seq Z.of_nat p | p <- primes_upto n]; split=> //.
- exact: GetPrimesUpTo_nat.
- by split; [apply: primes_list_sorted | apply: primes_list_uniq].
- exact: mem_primes_list.
by move=> lt_n2; rewrite primes_upto_small //; nat_lia.
Qed.

Lemma GetPrimesUpTo_primes_witness :
  exists ps,
    [/\ GetPrimesUpTo 10 = Done ps,
        sorted Z.ltb ps /\ uniq ps,
        forall p,
          (p \in ps) = [&& (2 <=? p)%Z, (p <=? 10)%Z & prime (Z.to_nat p)],
        (10 < 2)%Z -> ps = [::]
      & [/\ GetPrimesUpTo 10 = Done [:: 2; 3; 5; 7]%Z,
            GetPrimesUpTo 1 = Done [::] & GetPrimesUpTo 0 = Done [::]]].
Proof. apply: (GetPrimesUpTo_primes (limit := 10)); lia. Defined.

(** C4: NumDivisors(32327) is 656502 and NumDivisors(40921) is 686720. *)
Theorem NumDivisors_reference :
  NumDivisors 32327 = Done 656502%Z /\ NumDivisors 40921 = Done 686720%Z.
Proof.
by split; (rewrite NumDivisors_fastE; first by []); vm_compute.
Qed.

(** C5: NumDivisors(1) is 1: no prime is at most 1, no exponent is
    stored, and the product over no exponent is 1. *)
Theorem NumDivisors_one :
  [/\ NumDivisors 1 = Done 1%Z, GetPrimesUpTo 1 = Done [::],
      fill_exponents 1 [::] = Done [::]
    & accumulate (counter_values [::]) = 1%Z].
Proof. by []. Qed.

(** C6: for 1 <= N <= 10^6, NumDivisors(N) returns a value of
    [0, 1000006], and the accumulator lies in [0, 1000006] at the start of
    the loop over the exponents and after each of its turns, where it is
    reduced modulo 1000007. *)
Theorem NumDivisors_range (N : Z) :
  (1 <= N <= 1000000)%Z ->
  exists ps c,
    let es := counter_values c in
    [/\ GetPrimesUpTo N = Done ps /\ fill_exponents N ps = Done c,
        NumDivisors N = Done (accumulate es),
        (0 <= accumulate es <= 1000006)%Z,
        all_between 0 (MODULUS_TERM - 1) (1%Z :: accumulate_trace es)
      & last 1%Z (accumulate_trace es) = accumulate es].
Proof.
case=> le_1N _; have: (0 <= N)%Z by lia.
move=> /Z2Nat.id; move: (Z.to_nat N) => n <-.
exists [seq Z.of_nat p | p <- primes_upto n].
exists [seq (Z.of_nat p, Z.of_nat (logn p n`!)) | p <- primes_upto n].
split.
- by split; [apply: GetPrimesUpTo_nat | apply: fill_exponents_nat].
- by rewrite NumDivisors_nat counter_values_nat.
- have := @foldl_accumulate_range 1 (counter_values
    [seq (Z.of_nat p, Z.of_nat (logn p n`!)) | p <- primes_upto n]).
  by rewrite /accumulate /MODULUS_TERM; lia.
- by rewrite /all_between /= -/(all_between _ _ _) scanl_accumulate_range.
exact: last_accumulate_trace.
Qed.

Lemma NumDivisors_range_witness :
  exists ps c,
    let es := counter_values c in
    [/\ GetPrimesUpTo 10 = Done ps /\ fill_exponents 10 ps = Done c,
        NumDivisors 10 = Done (accumulate es),
        (0 <= accumulate es <= 1000006)%Z,
        all_between 0 (MODULUS_TERM - 1) (1%Z :: accumulate_trace es)
      & last 1%Z (accumulate_trace es) = accumulate es].
Proof. apply: (NumDivisors_range (N := 10)); lia. Defined.

(** C7: the value NumDivisors(N) returns is the product of the 2k + 1
    over the exponents k of the primes in N!, modulo 1000007, in whatever
    order the loop meets the exponents: the fold of
    result = (result * (2*e + 1)) mod 1000007 from 1 has the same value on
    every permutation of a sequence. *)
Theorem accumulate_any_order (N : Z) (es : seq Z) :
  (0 <= N)%Z -> perm_eq es (factorial_exponents (Z.to_nat N)) ->
  [/\ NumDivisors N = Done (accumulate es),
      accumulate es
      = (divisor_product (factorial_exponents (Z.to_nat N))
         mod MODULUS_TERM)%Z
    & forall es1 es2 : seq Z, perm_eq es1 es2 -> accumulate es1 = accumulate es2].
Proof.
move=> le_0N perm_es.
have accumulate_perm (es1 es2 : seq Z) :
    perm_eq es1 es2 -> accumulate es1 = accumulate es2.
  by move=> /divisor_product_perm eq_prod; rewrite !accumulateE eq_prod.
split=> //; last by rewrite (accumulate_perm _ _ perm_es) accumulateE.
by rewrite -{1}(Z2Nat.id N) // NumDivisors_nat (accumulate_perm _ _ perm_es).
Qed.

Lemma accumulate_any_order_witness :
  [/\ NumDivisors 4 = Done (accumulate [:: 1; 3]%Z),
      accumulate [:: 1; 3]%Z
      = (divisor_product (factorial_exponents (Z.to_nat 4))
         mod MODULUS_TERM)%Z
    & forall es1 es2 : seq Z, perm_eq es1 es2 -> accumulate es1 = accumulate es2].
Proof.
apply: (accumulate_any_order (N := 4) (es := [:: 1; 3]%Z)); first by lia.
by vm_compute.
Defined.

(** C8: the sieve that marks the multiples of i from i*i on returns what
    the program's sieve, which marks them from i on, returns, for every
    limit. *)
Theorem GetPrimesUpTo_square_same (limit : Z) :
  GetPrimesUpTo_square limit = GetPrimesUpTo limit
  /\ exists ps, GetPrimesUpTo limit = Done ps.
Proof.
case: (Z.le_gt_cases 0 limit) => [/Z2Nat.id | lt_0].
  move: (Z.to_nat limit) => n <-.
  rewrite GetPrimesUpTo_square_nat GetPrimesUpTo_nat.
  by split=> //; eexists.
rewrite /GetPrimesUpTo_square /GetPrimesUpTo /GetPrimesUpTo_run.
rewrite !sieve_run_below3 /=; try lia.
by split=> //; eexists.
Qed.

(** C9: GetPrimeExponent(N, p) terminates for N >= 0 and p >= 2: while
    the running value exceeds 1 a turn of the loop replaces it by a
    smaller, non-negative one, and the loop returns within any number of
    turns fuel with N < 2^fuel. *)
Theorem GetPrimeExponent_terminates (N p : Z) :
  (0 <= N)%Z -> (2 <= p)%Z ->
  (exists v,
     GetPrimeExponent N p = Done v
     /\ forall fuel, 0 < fuel -> (N < 2 ^ Z.of_nat fuel)%Z ->
          GetPrimeExponent_fuel fuel N p = Done v)
  /\ (forall r, (1 < r)%Z ->
        floordiv r p = Done (r / p)%Z /\ (0 <= r / p < r)%Z).
Proof.
move=> le_0N le_2p; split; last first.
  move=> r lt_1r; rewrite /floordiv; have /Z.eqb_neq->: p <> 0%Z by lia.
  split=> //; split; first by apply: Z.div_pos; lia.
  by apply: Z.div_lt; lia.
have def_N: Z.of_nat (Z.to_nat N) = N by rewrite Z2Nat.id.
have def_p: Z.of_nat (Z.to_nat p) = p by rewrite Z2Nat.id //; lia.
have lt_1q: 1 < Z.to_nat p by nat_lia.
move: (Z.to_nat N) (Z.to_nat p) def_N def_p lt_1q => n q <- <- lt_1q.
exists (Z.of_nat (\sum_(1 <= k < n.+1) n %/ q ^ k)).
split=> [|fuel fuel_gt0 lt_n]; first exact: GetPrimeExponent_nat.
rewrite /GetPrimeExponent_fuel (@exponent_loop_nat _ _ _ n) //.
by apply/ltP/Nat2Z.inj_lt; rewrite Z_of_nat_exp.
Qed.

Lemma GetPrimeExponent_terminates_witness :
  (exists v,
     GetPrimeExponent 10 2 = Done v
     /\ forall fuel, 0 < fuel -> (10 < 2 ^ Z.of_nat fuel)%Z ->
          GetPrimeExponent_fuel fuel 10 2 = Done v)
  /\ (forall r, (1 < r)%Z ->
        floordiv r 2 = Done (r / 2)%Z /\ (0 <= r / 2 < r)%Z).
Proof. apply: (GetPrimeExponent_terminates (N := 10) (p := 2)); lia. Defined.


(* The allocation of the marking array on CPython. *)
Lemma list_repeat_machine_fits (A : Type) (capacity : Z) (x : A) (n : Z) :
  (- 2 ^ 63 <= n <= 2 ^ 63 - 1)%Z -> (n <= capacity)%Z ->
  list_repeat_machine capacity x n = Done (list_repeat x n).
Proof.
move=> fits le_n; rewrite /list_repeat_machine /PY_SSIZE_T_MAX.
have /Z.ltb_ge->: (- (2 ^ 63 - 1) - 1 <= n)%Z by lia.
have /Z.ltb_ge->: (n <= 2 ^ 63 - 1)%Z by lia.
by have /Z.ltb_ge->: (n <= capacity)%Z by [].
Qed.

Lemma list_repeat_machine_overflow (A : Type) (capacity : Z) (x : A) (n : Z) :
  (n < - 2 ^ 63)%Z \/ (2 ^ 63 - 1 < n)%Z ->
  list_repeat_machine capacity x n = Raise OverflowError.
Proof.
rewrite /list_repeat_machine /PY_SSIZE_T_MAX => -[] out.
  by have /Z.ltb_lt->: (n < - (2 ^ 63 - 1) - 1)%Z by lia.
by have /Z.ltb_lt->: (2 ^ 63 - 1 < n)%Z; rewrite ?orbT.
Qed.


Lemma GetPrimesUpTo_machine_run_fits (capacity rangeEnd : Z) :
  (- 2 ^ 63 <= rangeEnd + 1 <= 2 ^ 63 - 1)%Z -> (rangeEnd + 1 <= capacity)%Z ->
  GetPrimesUpTo_machine_run capacity rangeEnd = GetPrimesUpTo_run rangeEnd.
Proof.
by move=> fits le_n; rewrite /GetPrimesUpTo_machine_run list_repeat_machine_fits.
Qed.

Lemma GetPrimesUpTo_machine_fits (capacity rangeEnd : Z) :
  (- 2 ^ 63 <= rangeEnd + 1 <= 2 ^ 63 - 1)%Z -> (rangeEnd + 1 <= capacity)%Z ->
  GetPrimesUpTo_machine capacity rangeEnd = GetPrimesUpTo rangeEnd.
Proof.
by move=> fits le_n; rewrite /GetPrimesUpTo_machine GetPrimesUpTo_machine_run_fits.
Qed.

Lemma NumDivisors_machine_fits (capacity N : Z) :
  (- 2 ^ 63 <= N + 1 <= 2 ^ 63 - 1)%Z -> (N + 1 <= capacity)%Z ->
  NumDivisors_machine capacity N = NumDivisors N.
Proof.
by move=> fits le_n; rewrite /NumDivisors_machine GetPrimesUpTo_machine_fits.
Qed.




(* ===================================================================== *)
(* Further properties of the program                                     *)
(* ===================================================================== *)

(* --------------------------------------------------------------------- *)
(* GetPrimeExponent on every pair of integers                            *)
(* --------------------------------------------------------------------- *)

Lemma floor_sum_widen (p n K : nat) :
  1 < p -> n <= K -> \sum_(1 <= k < K.+1) n %/ p ^ k = floor_sum p n.
Proof.
move=> lt_1p le_nK; rewrite (big_cat_nat (n := n.+1)) //=.
rewrite [X in _ + X]big_nat [X in _ + X]big1 ?addn0 // => k /andP[lt_nk _].
rewrite divn_small //; apply: (leq_trans lt_nk).
exact: ltnW (ltn_expl k lt_1p).
Qed.

Lemma floor_sum_rec (p n : nat) :
  1 < p -> floor_sum p n = n %/ p + floor_sum p (n %/ p).
Proof.
move=> lt_1p; case: n => [|n]; first by rewrite /floor_sum div0n big_geq.
rewrite {1}/floor_sum floor_sum_next floor_sum_widen //.
by rewrite -ltnS ltn_Pdiv.
Qed.

Lemma floor_sum_eq0 (p n : nat) : 1 < p -> (floor_sum p n == 0) = (n < p).
Proof.
move=> lt_1p; rewrite floor_sum_rec // addn_eq0.
case: (ltnP n p) => [lt_np | le_pn].
  by rewrite divn_small // /floor_sum big_geq.
have: 0 < n %/ p by rewrite divn_gt0 // ltnW.
by rewrite lt0n => /negbTE->.
Qed.

Lemma floor_sum_bound (p n : nat) :
  1 < p -> 0 < n -> floor_sum p n * p.-1 <= n.-1.
Proof.
move=> lt_1p; elim/ltn_ind: n => n IHn n_gt0.
rewrite floor_sum_rec // mulnDl.
have lt_qn: n %/ p < n by apply: ltn_Pdiv.
have le_qp := leq_divM n p.
case: (posnP (n %/ p)) => [-> | q_gt0]; first by rewrite /floor_sum big_geq.
have := IHn _ lt_qn q_gt0; move: (floor_sum p (n %/ p)) => s le_s.
have def_p: p = p.-1.+1 by rewrite prednK // ltnW.
have def_n: n = n.-1.+1 by rewrite prednK.
have def_q: n %/ p = (n %/ p).-1.+1 by rewrite prednK.
move: (n %/ p) n.-1 p.-1 def_p def_n def_q le_s le_qp {lt_qn q_gt0 IHn n_gt0}.
move=> q n' p' def_p def_n; move: q.-1 => q' def_q.
by rewrite def_p def_n def_q => le_s le_qp; nat_nia.
Qed.

Lemma floor_sum_mono (p m n : nat) :
  1 < p -> m <= n -> floor_sum p m <= floor_sum p n.
Proof.
move=> lt_1p le_mn; rewrite -(floor_sum_widen lt_1p le_mn).
by apply: leq_sum => k _; apply: leq_div2r.
Qed.

(* GetPrimeExponent for every N, when 2 <= p. *)
Lemma GetPrimeExponent_Z (N p : Z) :
  (2 <= p)%Z ->
  GetPrimeExponent N p = Done (Z.of_nat (floor_sum (Z.to_nat p) (Z.to_nat N))).
Proof.
move=> le_2p; have lt_1q: 1 < Z.to_nat p by nat_lia.
case: (Z.le_gt_cases 0 N) => [le_0N | lt_N0].
  rewrite -{1}(Z2Nat.id N) // -{1}(Z2Nat.id p); first by lia.
  exact: GetPrimeExponent_nat.
have ->: Z.to_nat N = 0 by lia.
rewrite /GetPrimeExponent /GetPrimeExponent_fuel /=.
have /Z.ltb_ge->: (N <= 1)%Z by lia.
by rewrite /floor_sum big_geq.
Qed.

(* The outcome of GetPrimeExponent, by cases on N and p. *)
Lemma GetPrimeExponent_at_most1 (N p : Z) :
  (N <= 1)%Z -> GetPrimeExponent N p = Done 0%Z.
Proof.
by move=> le_N1; rewrite /GetPrimeExponent /GetPrimeExponent_fuel /=; move/Z.ltb_ge: le_N1 => ->.
Qed.

Lemma GetPrimeExponent_by0 (N : Z) :
  (1 < N)%Z -> GetPrimeExponent N 0 = Raise ZeroDivisionError.
Proof.
by move=> lt_1N; rewrite /GetPrimeExponent /GetPrimeExponent_fuel /=; move/Z.ltb_lt: lt_1N => ->.
Qed.

Lemma GetPrimeExponent_by1 (N : Z) (fuel : nat) :
  (1 < N)%Z -> GetPrimeExponent_fuel fuel N 1 = OutOfFuel.
Proof. exact: exponent_loop_forever. Qed.

Lemma GetPrimeExponent_by_negative (N p : Z) :
  (1 < N)%Z -> (p < 0)%Z ->
  GetPrimeExponent N p = Done (N / p)%Z /\ (N / p < 0)%Z.
Proof.
move=> lt_1N lt_p0.
have lt_r0: (N / p < 0)%Z.
  have ne_p0: p <> 0%Z by lia.
  have := Z.div_mod N p ne_p0; have := Z.mod_neg_bound N p lt_p0.
  by move: (N / p)%Z (N mod p)%Z => q r; nia.
split=> //; rewrite /GetPrimeExponent /GetPrimeExponent_fuel.
have [k ->]: exists k, Z.to_nat N = k.+1 by exists (Z.to_nat N).-1; lia.
rewrite /=; have /Z.ltb_lt-> := lt_1N.
rewrite /floordiv; have /Z.eqb_neq->: p <> 0%Z by lia.
by rewrite /=; have /Z.ltb_ge->: (N / p <= 1)%Z by lia.
Qed.

(** X1: GetPrimeExponent(N, p) raises exactly when p is 0 and N exceeds 1,
    and what it raises then is ZeroDivisionError; with N <= 1 the loop
    body never runs and no division by p is made. *)
Theorem GetPrimeExponent_raises (N p : Z) (e : exn) :
  GetPrimeExponent N p = Raise e
  <-> [/\ e = ZeroDivisionError, p = 0%Z & (1 < N)%Z].
Proof.
split=> [|[-> -> lt_1N]]; last exact: GetPrimeExponent_by0.
case: (Z.le_gt_cases N 1) => [le_N1 | lt_1N].
  by rewrite GetPrimeExponent_at_most1.
case: (Z.le_gt_cases 2 p) => [le_2p | lt_p2]; first by rewrite GetPrimeExponent_Z.
case: (Z.eq_dec p 0) => [-> | ne_p0].
  by rewrite GetPrimeExponent_by0 // => -[<-].
case: (Z.eq_dec p 1) => [-> | ne_p1].
  by rewrite /GetPrimeExponent GetPrimeExponent_by1.
by have [|-> _] := @GetPrimeExponent_by_negative N p lt_1N; first by lia.
Qed.

(** X2: GetPrimeExponent(N, p) loops forever, whatever the number of
    turns allowed, exactly when p is 1 and N exceeds 1. *)
Theorem GetPrimeExponent_diverges (N p : Z) :
  (forall fuel, GetPrimeExponent_fuel fuel N p = OutOfFuel)
  <-> (p = 1%Z /\ (1 < N)%Z).
Proof.
split=> [forever | [-> lt_1N] fuel]; last exact: GetPrimeExponent_by1.
have:= forever (Z.to_nat N).+1; rewrite -/(GetPrimeExponent N p).
case: (Z.le_gt_cases N 1) => [le_N1 | lt_1N].
  by rewrite GetPrimeExponent_at_most1.
case: (Z.le_gt_cases 2 p) => [le_2p | lt_p2]; first by rewrite GetPrimeExponent_Z.
case: (Z.eq_dec p 0) => [-> | ne_p0]; first by rewrite GetPrimeExponent_by0.
case: (Z.eq_dec p 1) => [-> // | ne_p1].
by have [|-> _] := @GetPrimeExponent_by_negative N p lt_1N; first by lia.
Qed.

(** X3: with a negative p and N > 1, GetPrimeExponent(N, p) stops after
    one turn and returns the negative quotient N / p. *)
Theorem GetPrimeExponent_negative (N p : Z) :
  (1 < N)%Z -> (p < 0)%Z ->
  GetPrimeExponent N p = Done (N / p)%Z /\ (N / p < 0)%Z.
Proof. exact: GetPrimeExponent_by_negative. Qed.

Lemma GetPrimeExponent_negative_witness :
  GetPrimeExponent 7 (-2) = Done (7 / -2)%Z /\ (7 / -2 < 0)%Z.
Proof. apply: (GetPrimeExponent_negative (N := 7) (p := -2)); lia. Defined.

(** X4: for 2 <= p, GetPrimeExponent(N, p) is floor(N/p) plus
    GetPrimeExponent(floor(N/p), p), for every N >= 0. *)
Theorem GetPrimeExponent_recurrence (N p : Z) :
  (0 <= N)%Z -> (2 <= p)%Z ->
  exists e,
    GetPrimeExponent (N / p) p = Done e
    /\ GetPrimeExponent N p = Done (N / p + e)%Z.
Proof.
move=> le_0N le_2p; have lt_1q: 1 < Z.to_nat p by nat_lia.
exists (Z.of_nat (floor_sum (Z.to_nat p) (Z.to_nat (N / p)))).
rewrite !GetPrimeExponent_Z //; split=> //; congr Done.
rewrite [in LHS]floor_sum_rec // Nat2Z.inj_add Z_of_nat_div !Z2Nat.id //; try lia.
rewrite Z2Nat.inj_div //; try lia.
have ->: (Z.to_nat N / Z.to_nat p)%coq_nat = Z.to_nat N %/ Z.to_nat p.
  by apply: Nat2Z.inj; rewrite Z_of_nat_div Nat2Z.inj_div.
by [].
Qed.

Lemma GetPrimeExponent_recurrence_witness :
  exists e,
    GetPrimeExponent (10 / 2) 2 = Done e
    /\ GetPrimeExponent 10 2 = Done (10 / 2 + e)%Z.
Proof. apply: (GetPrimeExponent_recurrence (N := 10) (p := 2)); lia. Defined.

(** X5: for N >= 1 and 2 <= p, prime or not, the value e that
    GetPrimeExponent(N, p) returns satisfies 0 <= e and
    e * (p - 1) <= N - 1; in particular e < N. *)
Theorem GetPrimeExponent_bound (N p : Z) :
  (1 <= N)%Z -> (2 <= p)%Z ->
  exists e,
    [/\ GetPrimeExponent N p = Done e, (0 <= e)%Z,
        (e * (p - 1) <= N - 1)%Z & (e < N)%Z].
Proof.
move=> le_1N le_2p; have lt_1q: 1 < Z.to_nat p by nat_lia.
have n_gt0: 0 < Z.to_nat N by nat_lia.
rewrite GetPrimeExponent_Z //; have := floor_sum_bound lt_1q n_gt0.
move: (floor_sum _ _) => s le_s; exists (Z.of_nat s).
have le_sZ: (Z.of_nat s * (p - 1) <= N - 1)%Z.
  have ->: (p - 1 = Z.of_nat (Z.to_nat p).-1)%Z by lia.
  have ->: (N - 1 = Z.of_nat (Z.to_nat N).-1)%Z by lia.
  by rewrite -Nat2Z.inj_mul; apply/Nat2Z.inj_le/leP.
by split=> //; clear le_s; nia.
Qed.

Lemma GetPrimeExponent_bound_witness :
  exists e,
    [/\ GetPrimeExponent 10 4 = Done e, (0 <= e)%Z,
        (e * (4 - 1) <= 10 - 1)%Z & (e < 10)%Z].
Proof. apply: (GetPrimeExponent_bound (N := 10) (p := 4)); lia. Defined.

(** X6: for 2 <= p, GetPrimeExponent(N, p) returns 0 exactly when N < p,
    negative N included. *)
Theorem GetPrimeExponent_zero (N p : Z) :
  (2 <= p)%Z -> (GetPrimeExponent N p = Done 0%Z <-> (N < p)%Z).
Proof.
move=> le_2p; have lt_1q: 1 < Z.to_nat p by nat_lia.
rewrite GetPrimeExponent_Z //.
have := floor_sum_eq0 (Z.to_nat N) lt_1q.
move: (floor_sum _ _) => s; case: (ltnP (Z.to_nat N) _) => [lt_n | le_n] def_s.
  by split=> [_ | _]; [nat_lia | move/eqP: def_s => ->].
split=> [[eq_s] | lt_Np]; last by nat_lia.
have eq0: s = 0 by lia.
by rewrite eq0 in def_s.
Qed.

Lemma GetPrimeExponent_zero_witness :
  GetPrimeExponent 6 7 = Done 0%Z <-> (6 < 7)%Z.
Proof. refine (@GetPrimeExponent_zero 6 7 _); lia. Defined.

(** X7: for 2 <= p, GetPrimeExponent(N, p) does not decrease when N
    grows. *)
Theorem GetPrimeExponent_monotone (N N' p : Z) :
  (2 <= p)%Z -> (N <= N')%Z ->
  exists e e',
    [/\ GetPrimeExponent N p = Done e, GetPrimeExponent N' p = Done e'
      & (e <= e')%Z].
Proof.
move=> le_2p le_NN'; have lt_1q: 1 < Z.to_nat p by nat_lia.
do 2!eexists; split; try exact: GetPrimeExponent_Z.
apply/Nat2Z.inj_le/leP/floor_sum_mono => //.
by nat_lia.
Qed.

Lemma GetPrimeExponent_monotone_witness :
  exists e e',
    [/\ GetPrimeExponent 9 3 = Done e, GetPrimeExponent 10 3 = Done e'
      & (e <= e')%Z].
Proof. apply: (GetPrimeExponent_monotone (N := 9) (N' := 10) (p := 3)); lia. Defined.

(* --------------------------------------------------------------------- *)
(* GetPrimesUpTo and NumDivisors on every integer                        *)
(* --------------------------------------------------------------------- *)

Lemma GetPrimesUpTo_Z (r : Z) :
  GetPrimesUpTo r = Done [seq Z.of_nat p | p <- primes_upto (Z.to_nat r)].
Proof.
case: (Z.le_gt_cases 0 r) => [le_0r | lt_r0].
  by rewrite -{1}(Z2Nat.id r) // GetPrimesUpTo_nat.
rewrite /GetPrimesUpTo /GetPrimesUpTo_run sieve_run_below3; first by lia.
have ->: Z.to_nat r = 0 by lia.
by have /Z.leb_gt->: (r < 2)%Z by lia.
Qed.

Lemma NumDivisors_Z (N : Z) :
  NumDivisors N = Done (accumulate (factorial_exponents (Z.to_nat N))).
Proof.
case: (Z.le_gt_cases 0 N) => [le_0N | lt_N0].
  by rewrite -{1}(Z2Nat.id N) // NumDivisors_nat.
rewrite /NumDivisors GetPrimesUpTo_Z.
by have ->: Z.to_nat N = 0 by lia.
Qed.

Lemma primes_upto_S (e : nat) :
  primes_upto e.+1
  = if prime e.+1 then rcons (primes_upto e) e.+1 else primes_upto e.
Proof.
rewrite /primes_upto -[e.+2]addn1 iotaD filter_cat add0n /=.
by case: (prime e.+1); rewrite ?cats0 ?cats1.
Qed.


Lemma logn_fact_prime (p e : nat) :
  prime p -> prime e.+1 -> logn p (e.+1)`! = (p == e.+1) + logn p e`!.
Proof.
by move=> pr_p pr_n; rewrite factS lognM ?fact_gt0 // logn_prime.
Qed.

Lemma factorial_exponents_prime (e : nat) :
  prime e.+1 ->
  factorial_exponents e.+1 = rcons (factorial_exponents e) 1%Z.
Proof.
move=> pr_n; rewrite /factorial_exponents primes_upto_S pr_n map_rcons.
rewrite logn_fact_prime //; congr (rcons _ _).
  apply/eq_in_map => p; rewrite mem_primes_upto => /andP[le_pe pr_p].
  by rewrite logn_fact_prime // ltn_eqF.
have ->: logn e.+1 e`! = 0.
  apply/eqP; rewrite -leqn0 leqNgt logn_gt0 mem_primes pr_n fact_gt0 /=.
  by rewrite prime_dvd_fact // ltnn.
by rewrite eqxx.
Qed.



(** X9: for N < 2, with room for N + 1 cells, NumDivisors(N) returns 1
    when N >= -2^63 - 1, zero and negative N included, and raises
    OverflowError below, where the count N + 1 of [True] * (N + 1) does not
    fit a machine index. *)
Theorem NumDivisors_machine_below2 (capacity N : Z) :
  (N < 2)%Z -> (N + 1 <= capacity)%Z ->
  NumDivisors_machine capacity N
  = if (- 2 ^ 63 - 1 <=? N)%Z then Done 1%Z else Raise OverflowError.
Proof.
move=> lt_N2 le_n; case: Z.leb_spec => [fits | out].
  rewrite NumDivisors_machine_fits //; first by lia.
  rewrite NumDivisors_Z; have: Z.to_nat N < 2 by nat_lia.
  by case: (Z.to_nat N) => [|[|]].
rewrite /NumDivisors_machine /GetPrimesUpTo_machine /GetPrimesUpTo_machine_run.
by rewrite list_repeat_machine_overflow //; left; lia.
Qed.

Lemma NumDivisors_machine_below2_witness :
  NumDivisors_machine 10 (-5)
  = if (- 2 ^ 63 - 1 <=? -5)%Z then Done 1%Z else Raise OverflowError.
Proof.
by apply: (NumDivisors_machine_below2 (capacity := 10) (N := -5)); lia.
Defined.

(** X10: when N is prime, NumDivisors(N) is three times NumDivisors(N - 1)
    modulo 1000007: N enters N! with exponent 1 and the exponents of the
    smaller primes are those in (N - 1)!. *)
Theorem NumDivisors_prime_step (N : Z) :
  prime (Z.to_nat N) ->
  exists r,
    NumDivisors (N - 1) = Done r
    /\ NumDivisors N = Done ((r * 3) mod MODULUS_TERM)%Z.
Proof.
move=> pr_N; rewrite !NumDivisors_Z.
case def_n: (Z.to_nat N) pr_N => [|e] // pr_n.
have ->: Z.to_nat (N - 1) = e by lia.
eexists; split=> //; congr Done.
by rewrite factorial_exponents_prime // /accumulate -cats1 foldl_cat.
Qed.

Lemma NumDivisors_prime_step_witness :
  exists r,
    NumDivisors (7 - 1) = Done r
    /\ NumDivisors 7 = Done ((r * 3) mod MODULUS_TERM)%Z.
Proof. by apply: (NumDivisors_prime_step (N := 7)). Defined.

(** X11: for N >= 0 the mapping NumDivisors builds has the primes of
    [2, N] as its keys: every prime of [2, N] is a key and nothing else is,
    each key occurs once, the keys were inserted in strictly ascending
    order, and each key p is mapped to the multiplicity of p in N!, which
    is at least 1. *)
Theorem exponent_mapping (N : Z) :
  (0 <= N)%Z ->
  exists ps c,
    [/\ GetPrimesUpTo N = Done ps /\ fill_exponents N ps = Done c,
        [seq kv.1 | kv <- c] = ps,
        sorted Z.ltb [seq kv.1 | kv <- c] /\ uniq [seq kv.1 | kv <- c],
        forall p,
          (p \in [seq kv.1 | kv <- c])
          = [&& (2 <=? p)%Z, (p <=? N)%Z & prime (Z.to_nat p)]
      & forall p e, (p, e) \in c ->
          e = Z.of_nat (logn (Z.to_nat p) (Z.to_nat N)`!) /\ (1 <= e)%Z].
Proof.
move=> /Z2Nat.id; move: (Z.to_nat N) => n <-.
exists [seq Z.of_nat p | p <- primes_upto n].
exists [seq (Z.of_nat p, Z.of_nat (logn p n`!)) | p <- primes_upto n].
have def_keys:
  [seq kv.1 | kv <- [seq (Z.of_nat p, Z.of_nat (logn p n`!)) | p <- primes_upto n]]
  = [seq Z.of_nat p | p <- primes_upto n] by rewrite -map_comp.
rewrite def_keys; split=> //.
- by split; [apply: GetPrimesUpTo_nat | apply: fill_exponents_nat].
- by split; [apply: primes_list_sorted | apply: primes_list_uniq].
- exact: mem_primes_list.
move=> pz e /mapP[p p_in [-> ->]]; rewrite !Nat2Z.id.
move: p_in; rewrite mem_primes_upto => /andP[le_pn pr_p].
have: 0 < logn p n`!.
  by rewrite logn_gt0 mem_primes pr_p fact_gt0 prime_dvd_fact.
by move=> e_gt0; split=> //; nat_lia.
Qed.

Lemma exponent_mapping_witness :
  exists ps c,
    [/\ GetPrimesUpTo 10 = Done ps /\ fill_exponents 10 ps = Done c,
        [seq kv.1 | kv <- c] = ps,
        sorted Z.ltb [seq kv.1 | kv <- c] /\ uniq [seq kv.1 | kv <- c],
        forall p,
          (p \in [seq kv.1 | kv <- c])
          = [&& (2 <=? p)%Z, (p <=? 10)%Z & prime (Z.to_nat p)]
      & forall p e, (p, e) \in c ->
          e = Z.of_nat (logn (Z.to_nat p) (Z.to_nat 10)`!) /\ (1 <= e)%Z].
Proof. apply: (exponent_mapping (N := 10)); lia. Defined.




(** X16: for N >= 0 and whatever the order in which the dictionary yields
    the exponents, the accumulator of NumDivisors lies in [0, 1000006] at
    the start of the loop and after each turn, and the value returned is
    the same. *)
Theorem accumulator_any_order (N : Z) (es : seq Z) :
  (0 <= N)%Z ->
  (exists ps c,
     [/\ GetPrimesUpTo N = Done ps, fill_exponents N ps = Done c
       & perm_eq es (counter_values c)]) ->
  [/\ all_between 0 (MODULUS_TERM - 1) (1%Z :: accumulate_trace es),
      last 1%Z (accumulate_trace es) = accumulate es
    & NumDivisors N = Done (accumulate es)].
Proof.
move=> /Z2Nat.id; move: (Z.to_nat N) => n <- [ps [c []]].
rewrite GetPrimesUpTo_nat => -[<-]; rewrite fill_exponents_nat => -[<-].
rewrite counter_values_nat => /divisor_product_perm eq_prod; split.
- by rewrite /all_between /= -/(all_between _ _ _) scanl_accumulate_range.
- exact: last_accumulate_trace.
by rewrite NumDivisors_nat !accumulateE eq_prod.
Qed.

Lemma accumulator_any_order_witness :
  [/\ all_between 0 (MODULUS_TERM - 1) (1%Z :: accumulate_trace [:: 1; 3]%Z),
      last 1%Z (accumulate_trace [:: 1; 3]%Z) = accumulate [:: 1; 3]%Z
    & NumDivisors 4 = Done (accumulate [:: 1; 3]%Z)].
Proof.
apply: (accumulator_any_order (N := 4) (es := [:: 1; 3]%Z)); first by lia.
by exists [:: 2; 3]%Z, [:: (2, 3); (3, 1)]%Z; split; vm_compute.
Defined.

(* --------------------------------------------------------------------- *)
(* The marking array when GetPrimesUpTo returns                          *)
(* --------------------------------------------------------------------- *)

Lemma id_le_sqr (q : nat) : id q <= q * q.
Proof. by case: q => // q; rewrite leq_pmulr. Qed.

Lemma lt_same (c d : nat) : (forall k, (k < c) = (k < d)) -> c = d.
Proof.
move=> same; apply/eqP; rewrite eqn_leq [c <= d]leqNgt [d <= c]leqNgt.
by rewrite (same d) -(same c) !ltnn.
Qed.

(* Each assignment adds one index to those the array was accessed at. *)
Lemma marking_touched (xs : seq Z) (a a' : marks) :
  for_each xs (fun multiple a0 => setitem a0 multiple false) a = Done a' ->
  size (touched a') = size xs + size (touched a).
Proof.
elim: xs a => [|x xs IHxs] a /=; first by case=> <-.
rewrite /setitem; case: (position a x) => //= k /IHxs->.
by rewrite /= addnS addSn.
Qed.

(* The inner loop of the program assigns floor(n/q) times. *)
Lemma mark_multiples_count (n q : nat) (a a' : marks) :
  0 < q ->
  mark_multiples (fun i => i) (Z.of_nat n) (Z.of_nat q) a = Done a' ->
  size (touched a') = n %/ q + size (touched a).
Proof.
move=> q_gt0; rewrite /mark_multiples.
have [c -> cP] := py_range_nat q n q_gt0; rewrite /bind => /marking_touched->.
rewrite size_map size_iota; congr (_ + _); apply: lt_same => k.
by rewrite cP -mulSn -leq_divRL.
Qed.

Lemma sieve_step_count (n i : nat) (s s' : sieve) :
  0 < i -> i <= n -> size (cells (isPrime s)) = n.+1 ->
  sieve_step (fun i => i) (Z.of_nat n) (Z.of_nat i) s = Done s' ->
  size (touched (isPrime s'))
  = (if nth false (cells (isPrime s)) i then n %/ i else 0)
    + (size (touched (isPrime s))).+1.
Proof.
move=> i_gt0 le_in size_s; rewrite /sieve_step getitem_nat ?size_s ?ltnS //=.
case: (nth false _ i) => /=; last by case=> <-.
case run_a: (mark_multiples _ _ _ _) => [a'||] //= [<-] /=.
by rewrite (mark_multiples_count i_gt0 run_a).
Qed.

Lemma struck_widen (i j m : nat) :
  m < i -> m < j -> struck id i m <-> struck id j m.
Proof.
move=> lt_mi lt_mj.
by split=> -[q [_ pr_q odd_q dv_q le_qm]]; exists q; split=> //;
   apply: leq_ltn_trans le_qm _.
Qed.

Lemma odd_primes_below3 (n : nat) (F : nat -> nat) :
  n < 3 -> \sum_(p <- primes_upto n | odd p) F p = 0.
Proof.
move=> lt_n3; rewrite big_seq_cond big1 // => p /andP[].
rewrite mem_primes_upto => /andP[le_pn pr_p] odd_p.
have lt_p3: p < 3 by apply: leq_ltn_trans lt_n3.
by case: p lt_p3 pr_p odd_p {le_pn} => [|[|[|]]].
Qed.

(* The state GetPrimesUpTo ends in: what is marked, and how many times
   the array was read or written. *)
Lemma GetPrimesUpTo_run_final (n : nat) :
  exists s,
    [/\ GetPrimesUpTo_run (Z.of_nat n) = Done s,
        size (cells (isPrime s)) = n.+1,
        forall m, m <= n ->
          nth false (cells (isPrime s)) m = false <-> struck id n.+1 m
      & size (touched (isPrime s))
        = (n.-1)./2 + \sum_(p <- primes_upto n | odd p) n %/ p].
Proof.
rewrite /GetPrimesUpTo_run; case: (ltnP n 3) => [lt_n3 | le_3n].
  rewrite sieve_run_below3; first by nat_lia.
  eexists; split=> //=.
  - by rewrite list_repeat_nat size_nseq.
  - move=> m le_mn; rewrite list_repeat_nat nth_nseq ltnS le_mn.
    split=> // -[q [lt_q pr_q odd_q _ _]].
    have lt_q3: q < 3 by apply: leq_trans lt_q lt_n3.
    by case: q lt_q3 pr_q odd_q {lt_q} => [|[|[|]]].
  by rewrite odd_primes_below3 //; case: n lt_n3 => [|[|[|]]].
rewrite /sieve_run list_repeat_nat.
have /Z.leb_le->: (2 <= Z.of_nat n)%Z by nat_lia.
have [c -> cP] := @py_range_nat 3 n 2 isT; rewrite /bind.
pose I k s :=
  [/\ size (cells (isPrime s)) = n.+1, within n (isPrime s),
      forall m, m <= n ->
        nth false (cells (isPrime s)) m = false <-> struck id (3 + k * 2) m,
      primes s = [seq Z.of_nat p | p <- primes_upto (2 + k * 2)]
    & size (touched (isPrime s))
      = k + \sum_(p <- primes_upto (2 + k * 2) | odd p) n %/ p].
have [||s run_s [size_s _ cells_s _ count_s]] :=
    @for_each_iota _ _ I (fun k => Z.of_nat (3 + k * 2))
      (sieve_step (fun i => i) (Z.of_nat n)) c
      (Sieve (Marks (nseq n.+1 true) [::]) [:: 2%Z]).
- split=> //; first by rewrite /= size_nseq.
    move=> m le_mn; rewrite -[cells _]/(nseq n.+1 true) nth_nseq ltnS le_mn.
    by split=> // /struck_below3.
  by rewrite odd_primes_below3.
- move=> k s; rewrite cP => le_in [size_s in_s cells_s primes_s count_s].
  have odd_i: odd (3 + k * 2) by rewrite oddD oddM andbF.
  have [s' run_s' [size_s' in_s' cells_s' primes_s']] :=
    @sieve_step_nat (fun i => i) id (fun=> erefl) dvdnn id_le_sqr n _ s
      odd_i isT le_in (And4 size_s in_s cells_s primes_s).
  exists s' => //; split=> //.
  rewrite (sieve_step_count _ le_in size_s run_s') // count_s.
  have ->: nth false (cells (isPrime s)) (3 + k * 2) = prime (3 + k * 2).
    apply/idP/idP => [marked | /(candidate_prime id_le_sqr odd_i isT) free].
      apply/(candidate_prime id_le_sqr odd_i isT) => /cells_s.
      by rewrite marked => /(_ le_in).
    by apply/negPn/negP => /negbTE /cells_s -/(_ le_in).
  have even_e: ~~ odd (2 + k * 2) by rewrite oddD oddM andbF.
  rewrite [in RHS](@primes_upto_next (2 + k * 2)) //.
  case: (prime _); last by rewrite add0n addSn.
  rewrite -[(2 + k * 2).+1]/(3 + k * 2) -cats1 big_cat big_cons big_nil.
  by rewrite odd_i /= addn0; nat_lia.
exists s; split=> //.
  move=> m le_mn; rewrite cells_s //; apply: struck_widen => //.
  have: ~~ (c < c) by rewrite ltnn.
  rewrite cP -ltnNge ltnS => /(leq_trans le_mn) le_m.
  by rewrite -[3 + c * 2]/((2 + c * 2).+1) ltnS.
have def_c: c = (n.-1)./2.
  apply: lt_same => k; rewrite cP -divn2 -[k < _]/(k.+1 <= _) leq_divRL //.
  have: n = n.-1.+1 by rewrite prednK // (leq_trans _ le_3n).
  move: n.-1 => n' ->.
  by apply/idP/idP => H; nat_lia.
have eq_primes: primes_upto (2 + c * 2) = primes_upto n.
  have: ~~ (c < c) by rewrite ltnn.
  rewrite cP -ltnNge ltnS leq_eqVlt => /predU1P[-> // | lt_n].
  have c_gt0: 0 < c by rewrite cP.
  have: c.-1 < c by rewrite prednK.
  rewrite cP => le_n; have def_n: n = (c.-1 * 2).+3 by nat_lia.
  have ->: 2 + c * 2 = (c.-1 * 2).+4 by nat_lia.
  have even_e: ~~ odd (c.-1 * 2).+2 by rewrite /= negbK oddM andbF.
  by rewrite def_n primes_upto_next // -primes_upto_odd.
by rewrite count_s eq_primes -def_c.
Qed.

Lemma free_pow2 (n m : nat) :
  m <= n -> ~ struck id n.+1 m <-> m = 0 \/ exists k, m = 2 ^ k.
Proof.
move=> le_mn; split=> [free | pow2 [q [_ pr_q odd_q dv_q le_qm]]].
  case: (posnP m) => [-> | m_gt0]; [by left | right].
  have /p_natP[k def_m]: 2.-nat m; last by exists k.
  apply/pnatP => // q pr_q dv_q; rewrite inE /=.
  apply: contra_notT free => ne_q2; exists q; split=> //.
  - by rewrite ltnS; apply: leq_trans le_mn; apply: dvdn_leq.
  - apply: contraR ne_q2; rewrite -dvdn2 => dv2.
    by rewrite eq_sym -(dvdn_prime2 (p := 2)).
  - exact: dvdn_leq.
case: pow2 => [eq_m0 | [k def_m]].
  by move: le_qm; rewrite eq_m0 leqn0 => /eqP eq_q0; rewrite eq_q0 in pr_q.
move: dv_q; rewrite def_m Euclid_dvdX // dvdn_prime2 // => /andP[/eqP eq_q2 _].
by rewrite eq_q2 in odd_q.
Qed.

(** X13: when GetPrimesUpTo(rangeEnd) returns, for rangeEnd >= 0, the
    marking array isPrime is not the table of the primes: its entry m is
    still True exactly when m is 0 or a power of 2, every odd prime having
    been marked as the first of its own multiples. *)
Theorem isPrime_on_return (rangeEnd : Z) :
  (0 <= rangeEnd)%Z ->
  exists s,
    GetPrimesUpTo_run rangeEnd = Done s
    /\ forall m : nat, (Z.of_nat m <= rangeEnd)%Z ->
         nth false (cells (isPrime s)) m = true
         <-> (m = 0 \/ exists k, m = 2 ^ k).
Proof.
move=> /Z2Nat.id; move: (Z.to_nat rangeEnd) => n <-.
have [s [run_s _ cells_s _]] := GetPrimesUpTo_run_final n.
exists s; split=> // m le_mZ; have le_mn: m <= n by nat_lia.
rewrite -(free_pow2 le_mn); have := cells_s m le_mn.
case: (nth false _ m) => -[to_struck of_struck]; split=> //.
  by move=> _ struck_m; have := of_struck struck_m.
by move=> free; case: free; apply: to_struck.
Qed.

Lemma isPrime_on_return_witness :
  exists s,
    GetPrimesUpTo_run 20 = Done s
    /\ forall m : nat, (Z.of_nat m <= 20)%Z ->
         nth false (cells (isPrime s)) m = true
         <-> (m = 0 \/ exists k, m = 2 ^ k).
Proof. apply: (isPrime_on_return (rangeEnd := 20)); lia. Defined.

(** X14: for rangeEnd >= 1, GetPrimesUpTo(rangeEnd) accesses its marking
    array floor((rangeEnd - 1) / 2) + sum of floor(rangeEnd / p) over the
    odd primes p <= rangeEnd times in all: one read for each odd number of
    [3, rangeEnd], and floor(rangeEnd / p) writes for each odd prime p. *)
Theorem GetPrimesUpTo_accesses (rangeEnd : Z) :
  (1 <= rangeEnd)%Z ->
  let n := Z.to_nat rangeEnd in
  exists s,
    GetPrimesUpTo_run rangeEnd = Done s
    /\ size (touched (isPrime s))
       = (n - 1) %/ 2 + \sum_(p <- primes_upto n | odd p) n %/ p.
Proof.
move=> le_1 n; have [s [run_s _ _ count_s]] := GetPrimesUpTo_run_final n.
exists s; rewrite -run_s /n Z2Nat.id; first by lia.
by rewrite count_s subn1 divn2.
Qed.

Lemma GetPrimesUpTo_accesses_witness :
  let n := Z.to_nat 20 in
  exists s,
    GetPrimesUpTo_run 20 = Done s
    /\ size (touched (isPrime s))
       = (n - 1) %/ 2 + \sum_(p <- primes_upto n | odd p) n %/ p.
Proof. apply: (GetPrimesUpTo_accesses (rangeEnd := 20)); lia. Defined.
